(** * DockerS3LogDriver: the log relay of [s3.go]

    A shallow embedding of [s3.go]: the [Log] and [Capabilities] methods of
    [S3Logger] and the start-up path of [main], together with the parts of
    Go's [bufio.Scanner] that [Log] drives.

    Effects are explicit.  [Log] returns its Go result together with the
    trace of the operations it performed, in program order.  The outside
    world is an input: the storage client answers a request with a body or
    an error, a body is the script of what its [Read] calls deliver, and a
    context tells for each poll of [ctx.Done()] whether the channel was
    already closed. *)

From Stdlib Require Import Strings.String Strings.Byte ZArith Lia Bool Arith List.
Import ListNotations.

Local Open Scope string_scope.
Local Open Scope list_scope.
Local Open Scope nat_scope.

(** ** Go errors *)

(** The error values that reach [Log].  Sentinels are compared by identity
    in Go ([s.err == io.EOF]), so each has a constructor of its own;
    [errorString] is what [errors.New] and [fmt.Errorf] (without [%w])
    build, and stands for any other error by its text. *)
Inductive error : Type :=
| EOF                (* io.EOF *)
| ErrNoProgress      (* io.ErrNoProgress *)
| ErrTooLong         (* bufio.ErrTooLong *)
| ErrAdvanceTooFar   (* bufio.ErrAdvanceTooFar *)
| ErrBadReadCount    (* bufio.ErrBadReadCount *)
| errorString (s : string).

(** [err.Error()]. *)
Definition Error (e : error) : string :=
  match e with
  | EOF => "EOF"
  | ErrNoProgress => "multiple Read calls return no data or error"
  | ErrTooLong => "bufio.Scanner: token too long"
  | ErrAdvanceTooFar => "bufio.Scanner: SplitFunc returns advance count beyond input"
  | ErrBadReadCount => "bufio.Scanner: Read returned impossible count"
  | errorString s => s
  end.

(** [fmt.Errorf(prefix + "%v", err)]: the verb [%v] prints [err.Error()];
    the result is a fresh [errorString]. *)
Definition Errorf (prefix : string) (err : error) : error :=
  errorString (String.append prefix (Error err)).

Definition isNil {A : Type} (o : option A) : bool :=
  match o with None => true | Some _ => false end.

(** ** The body of a fetched object: an [io.ReadCloser] *)

(** What the stream delivers: the successive non-error reads, then the
    error every later [Read] reports ([io.EOF] at a regular end).  Data and
    the final error come in separate calls. *)
Record ReadCloser : Type := mkReadCloser {
  chunks : list (list byte);
  final : error
}.

(** [r.Read(p)] with [len(p) = n]: at most [n] bytes of the next chunk. *)
Definition Read (r : ReadCloser) (n : nat) : list byte * option error * ReadCloser :=
  match chunks r with
  | [] => ([], Some (final r), r)
  | c :: cs =>
      if length c <=? n then (c, None, mkReadCloser cs (final r))
      else (firstn n c, None, mkReadCloser (skipn n c :: cs) (final r))
  end.

(** All bytes the stream delivers. *)
Definition content (r : ReadCloser) : list byte := concat (chunks r).

(** ** [bufio.Scanner] with the [ScanLines] split function *)

Module bufio.

(** [MaxScanTokenSize], [startBufSize], [maxConsecutiveEmptyReads]. *)
Definition MaxScanTokenSize : nat := 64 * 1024.
Definition startBufSize : nat := 4096.
Definition maxConsecutiveEmptyReads : nat := 100.

Definition newline : byte := x0a.
Definition carriageReturn : byte := x0d.

(** [bytes.IndexByte]; [None] is Go's [-1]. *)
Fixpoint IndexByte (data : list byte) (c : byte) : option nat :=
  match data with
  | [] => None
  | b :: t => if Byte.eqb b c then Some 0 else option_map S (IndexByte t c)
  end.

(** [dropCR]: drops one terminal ['\r']. *)
Definition dropCR (data : list byte) : list byte :=
  if (0 <? length data) && Byte.eqb (last data x00) carriageReturn
  then removelast data
  else data.

(** [ScanLines data atEOF].  The result is (advance, token); a [nil]
    token is [None], which differs from an empty token.  Its error result
    is always [nil] and is left out. *)
Definition ScanLines (data : list byte) (atEOF : bool)
  : nat * option (list byte) :=
  if atEOF && (length data =? 0) then (0, None)
  else
    match IndexByte data newline with
    | Some i => (i + 1, Some (dropCR (firstn i data)))
    | None => if atEOF then (length data, Some (dropCR data)) else (0, None)
    end.

(** The scanner.  [buf] is kept as its length [buflen] and the unread
    window [pend = buf[start:end]], so [end = start + length pend].
    [NewScanner] installs [ScanLines] and [MaxScanTokenSize]; [Log] never
    changes them, so they are not fields.  The [done] flag is only set by
    a split function returning [ErrFinalToken], which [ScanLines] never
    does. *)
Record Scanner : Type := mkScanner {
  r : ReadCloser;
  buflen : nat;
  start : nat;
  pend : list byte;
  token : option (list byte);
  err : option error;
  empties : nat
}.

Definition NewScanner (rd : ReadCloser) : Scanner :=
  mkScanner rd 0 0 [] None None 0.

Definition end_ (s : Scanner) : nat := start s + length (pend s).

(** [setErr]: records the first non-EOF error. *)
Definition setErr (s : Scanner) (e : error) : Scanner :=
  match err s with
  | None | Some EOF =>
      mkScanner (r s) (buflen s) (start s) (pend s) (token s) (Some e) (empties s)
  | Some _ => s
  end.

(** The inner loop of [Scan] that reads into [buf[end:]]; [left] counts
    the reads still allowed, [maxConsecutiveEmptyReads + 1] at entry. *)
Fixpoint readLoop (left : nat) (s : Scanner) : Scanner :=
  match left with
  | 0 => s
  | S left' =>
      let space := buflen s - end_ s in
      let '(p, e, rd) := Read (r s) space in
      if space <? length p then
        setErr (mkScanner rd (buflen s) (start s) (pend s) (token s) (err s) (empties s))
               ErrBadReadCount
      else
        let s1 := mkScanner rd (buflen s) (start s) (pend s ++ p) (token s) (err s) (empties s) in
        match e with
        | Some e' => setErr s1 e'
        | None =>
            if 0 <? length p then
              mkScanner rd (buflen s) (start s) (pend s ++ p) (token s) (err s) 0
            else
              match left' with
              | 0 => setErr s1 ErrNoProgress
              | S _ => readLoop left' s1
              end
        end
  end.

Inductive ScanResult : Type :=
| ScanTrue
| ScanFalse
| ScanPanic.   (* "bufio.Scan: too many empty tokens without progressing" *)

(** What the first half of a [Scan] iteration decides. *)
Inductive Attempt : Type :=
| Decided (res : ScanResult) (s : Scanner)
| More (s : Scanner).

(** "See if we can get a token with what we already have." *)
Definition tryToken (s : Scanner) : Attempt :=
  if (0 <? length (pend s)) || negb (isNil (err s)) then
    let '(advance, tok) := ScanLines (pend s) (negb (isNil (err s))) in
    if length (pend s) <? advance then
      Decided ScanFalse (setErr s ErrAdvanceTooFar)
    else
      let s1 := mkScanner (r s) (buflen s) (start s + advance)
                          (skipn advance (pend s)) tok (err s) (empties s) in
      match tok with
      | Some _ =>
          if isNil (err s) || (0 <? advance) then
            Decided ScanTrue (mkScanner (r s1) (buflen s1) (start s1) (pend s1) tok (err s1) 0)
          else
            let s2 := mkScanner (r s1) (buflen s1) (start s1) (pend s1) tok (err s1)
                                (S (empties s1)) in
            if maxConsecutiveEmptyReads <? empties s2 then Decided ScanPanic s2
            else Decided ScanTrue s2
      | None => More s1
      end
  else More s.

(** "First, shift data to beginning of buffer if there's lots of empty
    space or space is needed." *)
Definition shift (s : Scanner) : Scanner :=
  if (0 <? start s) && ((end_ s =? buflen s) || (buflen s / 2 <? start s)) then
    mkScanner (r s) (buflen s) 0 (pend s) (token s) (err s) (empties s)
  else s.

(** "Is the buffer full? If so, resize."  [None] is the [ErrTooLong]
    exit.  The guard [len(s.buf) > maxInt/2] of the source cannot hold
    below [MaxScanTokenSize] and is left out. *)
Definition grow (s : Scanner) : option Scanner :=
  if end_ s =? buflen s then
    if MaxScanTokenSize <=? buflen s then None
    else
      let newSize := if buflen s * 2 =? 0 then startBufSize else buflen s * 2 in
      let newSize := Nat.min newSize MaxScanTokenSize in
      Some (mkScanner (r s) newSize 0 (pend s) (token s) (err s) (empties s))
  else Some s.

(** [Scan], its outer [for] loop unrolled [fuel] times; [None] only when
    the fuel runs out. *)
Fixpoint ScanFuel (fuel : nat) (s : Scanner) : option (ScanResult * Scanner) :=
  match fuel with
  | 0 => None
  | S fuel' =>
      match tryToken s with
      | Decided res s' => Some (res, s')
      | More s1 =>
          if negb (isNil (err s1)) then
            Some (ScanFalse,
                  mkScanner (r s1) (buflen s1) 0 [] (token s1) (err s1) (empties s1))
          else
            let s2 := shift s1 in
            match grow s2 with
            | None => Some (ScanFalse, setErr s2 ErrTooLong)
            | Some s3 =>
                ScanFuel fuel' (readLoop (maxConsecutiveEmptyReads + 1) s3)
            end
      end
  end.

(** Every pass of the outer loop that does not return either consumes a
    byte of the stream or records an error, and a pass with an error
    recorded returns. *)
Definition scanFuel (s : Scanner) : nat := length (content (r s)) + 2.

Definition Scan (s : Scanner) : option (ScanResult * Scanner) :=
  ScanFuel (scanFuel s) s.

(** [Text]: [string(s.token)]. *)
Definition Text (s : Scanner) : string :=
  match token s with
  | Some t => string_of_list_byte t
  | None => ""
  end.

(** *** Measures and invariants of the scanner, for the proofs *)

(** The bytes not yet turned into tokens: the window and the rest of the
    stream. *)
Definition unread (s : Scanner) : list byte := pend s ++ content (r s).

(** A bound on the passes of the outer loop of [Scan] still to come. *)
Definition passes (s : Scanner) : nat :=
  match err s with
  | Some _ => 0
  | None => S (length (content (r s)))
  end.

(** A stream whose every successful [Read] delivers at least one byte. *)
Definition delivers (rd : ReadCloser) : Prop :=
  Forall (fun c => c <> []) (chunks rd).

(** The states a scanner over such a stream goes through between calls of
    [Scan]: the window lies in the buffer, the buffer is within the token
    limit, and an error was recorded only at the end of the stream, with
    room left in the buffer. *)
Definition wf (s : Scanner) : Prop :=
  end_ s <= buflen s /\
  buflen s <= MaxScanTokenSize /\
  delivers (r s) /\
  (err s <> None -> chunks (r s) = [] /\ length (pend s) < MaxScanTokenSize).


End bufio.

(** ** Newline-delimited records *)

(** The records of a byte sequence, in the words of the specification: the
    pieces between newlines, a last piece without newline counting when it
    is not empty. *)
Fixpoint records (data : list byte) : list (list byte) :=
  match data with
  | [] => []
  | b :: t =>
      if Byte.eqb b bufio.newline then [] :: records t
      else
        match records t with
        | [] => [[b]]
        | rec :: recs => (b :: rec) :: recs
        end
  end.

(** The records up to the first one that does not fit the scanner's token
    limit. *)
Fixpoint scannable (recs : list (list byte)) : list (list byte) :=
  match recs with
  | [] => []
  | rec :: rest =>
      if length rec <? bufio.MaxScanTokenSize then rec :: scannable rest else []
  end.

(** The text [Log] sends for a record: [string(dropCR(record))]. *)
Definition text (rec : list byte) : string :=
  string_of_list_byte (bufio.dropCR rec).

(** ** The collaborators of [Log] *)

(** [context.Context], as far as [Log] looks at it: [Done ctx k] tells
    whether the channel [ctx.Done()] is closed when the request polls it
    for the [k]-th time (counting from 0). *)
Record Context : Type := mkContext {
  Done : nat -> bool
}.

Module s3.

Record GetObjectInput : Type := mkGetObjectInput {
  Bucket : string;
  Key : string
}.

Record GetObjectOutput : Type := mkGetObjectOutput {
  Body : ReadCloser
}.

(** The client handle [*s3.S3]: its answer to a request, an output or an
    error. *)
Record S3 : Type := mkS3 {
  GetObjectWithContext : Context -> GetObjectInput -> GetObjectOutput + error
}.

End s3.

Module logger.

Module Message.
(** The request.  Its channel [Logs] is the [EvSend] events of the
    trace. *)
Record t : Type := mk {
  ContainerID : string;
  Source : string
}.
End Message.

Module LogLine.
Record t : Type := mk {
  Line : string;
  Source : string;
  Partial : bool;
  Timestamp : Z
}.
End LogLine.

Module Capabilities.
Record t : Type := mk {
  ReadLogs : bool;
  ReadConfig : bool
}.
End Capabilities.

End logger.

Import logger.

Definition driverName : string := "s3logdriver".

Record S3Logger : Type := mkS3Logger {
  s3Client : s3.S3;
  bucket : string
}.

(** ** Traces *)

(** What [Log] does, in program order. *)
Inductive Event : Type :=
| EvGetObject (input : s3.GetObjectInput)   (* l.s3Client.GetObjectWithContext *)
| EvScan (ok : bool)                        (* scanner.Scan() and its result *)
| EvNow                                     (* time.Now() *)
| EvMarshal (line : LogLine.t)              (* configLine.MarshalJSON() *)
| EvPoll (cancelled : bool)                 (* the select on ctx.Done() *)
| EvSend (line : LogLine.t)                 (* config.Logs <- &configLine *)
| EvClose.                                  (* reader.Body.Close() *)

(** How a call ends: it returns its [error] result ([None] is [nil]), or
    it panics. *)
Inductive Outcome : Type :=
| Returned (e : option error)
| Panicked.

(** The lines sent on [config.Logs], in order. *)
Fixpoint sent (tr : list Event) : list LogLine.t :=
  match tr with
  | [] => []
  | EvSend l :: tr' => l :: sent tr'
  | _ :: tr' => sent tr'
  end.

Definition isClose (e : Event) : bool :=
  match e with EvClose => true | _ => false end.

Definition isGetObject (e : Event) : bool :=
  match e with EvGetObject _ => true | _ => false end.

Definition isPoll (e : Event) : bool :=
  match e with EvPoll _ => true | _ => false end.

Definition count (p : Event -> bool) (tr : list Event) : nat :=
  length (filter p tr).

(** ** [Log] and [Capabilities] *)

Section Relay.

(** [configLine.MarshalJSON()], reduced to its error result as [Log]
    uses it. *)
Variable MarshalJSON : LogLine.t -> option error.

(** [time.Now()] at its [k]-th call within the request. *)
Variable Now : nat -> Z.

(** The [for scanner.Scan()] loop; [k] counts the iterations completed.
    [None] only when the fuel runs out. *)
Fixpoint scanLoop (fuel : nat) (ctx : Context) (containerID : string)
         (scanner : bufio.Scanner) (k : nat) : option (Outcome * list Event) :=
  match fuel with
  | 0 => None
  | S fuel' =>
      match bufio.Scan scanner with
      | None => None
      | Some (bufio.ScanPanic, _) => Some (Panicked, [])
      | Some (bufio.ScanFalse, _) => Some (Returned None, [EvScan false])
      | Some (bufio.ScanTrue, scanner') =>
          let logLine := bufio.Text scanner' in
          let configLine := LogLine.mk logLine containerID false (Now k) in
          match MarshalJSON configLine with
          | Some err =>
              Some (Returned (Some (Errorf "error marshalling log line: " err)),
                    [EvScan true; EvNow; EvMarshal configLine])
          | None =>
              if Done ctx k then
                Some (Returned None,
                      [EvScan true; EvNow; EvMarshal configLine; EvPoll true])
              else
                match scanLoop fuel' ctx containerID scanner' (S k) with
                | None => None
                | Some (res, tr) =>
                    Some (res,
                          [EvScan true; EvNow; EvMarshal configLine;
                           EvPoll false; EvSend configLine] ++ tr)
                end
          end
      end
  end.

(** Every iteration that goes round takes a token off the stream, and a
    token of [ScanLines] takes at least one byte. *)
Definition loopFuel (body : ReadCloser) : nat := length (content body) + 1.

(** [Log]; the deferred [reader.Body.Close()] runs last on every way out
    of the part after the [defer]. *)
Definition Log (l : S3Logger) (ctx : Context) (config : Message.t)
  : option (Outcome * list Event) :=
  if negb (Message.Source config =? "")%string then
    Some (Returned None, [])
  else
    let containerID := Message.ContainerID config in
    let input := s3.mkGetObjectInput (bucket l) containerID in
    match s3.GetObjectWithContext (s3Client l) ctx input with
    | inr err =>
        Some (Returned (Some (Errorf "failed to get object from S3: " err)),
              [EvGetObject input])
    | inl reader =>
        let scanner := bufio.NewScanner (s3.Body reader) in
        match scanLoop (loopFuel (s3.Body reader)) ctx containerID scanner 0 with
        | None => None
        | Some (res, tr) => Some (res, EvGetObject input :: tr ++ [EvClose])
        end
    end.

(** The shape of the loop's traces, told iteration by iteration from the
    [k]-th on, with the result the loop ends in: the stream yields no
    further token, or encoding fails, or cancellation is seen, or the line
    is sent and the loop goes round. *)
Inductive loopRun (ctx : Context) (containerID : string)
  : nat -> Outcome -> list Event -> Prop :=
| run_exhausted k :
    loopRun ctx containerID k (Returned None) [EvScan false]
| run_unencodable k logLine cause :
    MarshalJSON (LogLine.mk logLine containerID false (Now k)) = Some cause ->
    loopRun ctx containerID k
            (Returned (Some (Errorf "error marshalling log line: " cause)))
            [EvScan true; EvNow;
             EvMarshal (LogLine.mk logLine containerID false (Now k))]
| run_cancelled k logLine :
    MarshalJSON (LogLine.mk logLine containerID false (Now k)) = None ->
    Done ctx k = true ->
    loopRun ctx containerID k (Returned None)
            [EvScan true; EvNow;
             EvMarshal (LogLine.mk logLine containerID false (Now k));
             EvPoll true]
| run_sent k logLine res tr :
    MarshalJSON (LogLine.mk logLine containerID false (Now k)) = None ->
    Done ctx k = false ->
    loopRun ctx containerID (S k) res tr ->
    loopRun ctx containerID k res
            ([EvScan true; EvNow;
              EvMarshal (LogLine.mk logLine containerID false (Now k));
              EvPoll false;
              EvSend (LogLine.mk logLine containerID false (Now k))] ++ tr).

End Relay.

(** [Capabilities]. *)
Definition Capabilities (l : S3Logger) : Capabilities.t :=
  Capabilities.mk false false.

(** ** [main] *)

(** What the process does at start-up, in program order. *)
Inductive ProcEvent : Type :=
| Println (s : string)                      (* fmt.Println to standard output *)
| Printf (s : string)                       (* fmt.Printf to standard output *)
| NewSession                                (* session.NewSessionWithOptions *)
| NewS3                                     (* s3.New(sess) *)
| NewHandler                                (* logdriver.NewHandler(s3Logger) *)
| ServeUnix (name : string) (gid : Z).      (* h.ServeUnix(driverName, 0) *)

(** How the process ends. *)
Inductive ProcEnd : Type :=
| Exit (status : Z)     (* os.Exit, or 0 when main returns *)
| Panic.                (* session.Must on a failed session *)

(** What start-up meets outside the program: the error results of creating
    the session and of serving the plugin socket. *)
Record Startup : Type := mkStartup {
  sessionErr : option error;
  serveErr : option error
}.

Definition lf : string := String (Ascii.ascii_of_nat 10) EmptyString.

(** [main], from the point where [flag.Parse] has returned: [S3Bucket] is
    the value it left in [opts.S3Bucket], the default [""] when the flag
    [-s3-bucket] was not given. *)
Definition main (S3Bucket : string) (env : Startup) : list ProcEvent * ProcEnd :=
  if (S3Bucket =? "")%string then
    ([Println "Please provide an S3 bucket name"], Exit 1)
  else
    match sessionErr env with
    | Some _ => ([NewSession], Panic)
    | None =>
        let tr := [NewSession; NewS3; NewHandler; ServeUnix driverName 0] in
        match serveErr env with
        | Some err =>
            (tr ++ [Printf (String.append "Error starting the S3 logger: "
                                          (String.append (Error err) lf))],
             Exit 1)
        | None => (tr, Exit 0)
        end
    end.

(** ** Scenarios

    The concrete surroundings the statements below are tried in. *)

Definition bytes (s : string) : list byte := list_byte_of_string s.

(** An object store that holds one object, under the key [abc123] of the
    bucket [logs-test]. *)
Definition storeOf (body : ReadCloser) : s3.S3 :=
  s3.mkS3 (fun _ input =>
    if ((s3.Bucket input =? "logs-test") && (s3.Key input =? "abc123"))%string
    then inl (s3.mkGetObjectOutput body)
    else inr (errorString "NoSuchKey: The specified key does not exist.")).

(** The object of the specification's scenario: three lines, the last
    without newline. *)
Definition threeLines : list byte :=
  bytes "line1" ++ [x0a] ++ bytes "line2" ++ [x0a] ++ bytes "line3".

Definition relay (body : ReadCloser) : S3Logger :=
  mkS3Logger (storeOf body) "logs-test".

(** A context that is never cancelled, and one that is cancelled from its
    [n]-th poll on. *)
Definition live : Context := mkContext (fun _ => false).
Definition cancelledFrom (n : nat) : Context := mkContext (fun k => n <=? k).

(** An encoder that never fails, and one that fails on a given text. *)
Definition encodes : LogLine.t -> option error := fun _ => None.
Definition rejects (bad : string) : LogLine.t -> option error :=
  fun line =>
    if (LogLine.Line line =? bad)%string
    then Some (errorString "json: unsupported value")
    else None.

Definition clock : nat -> Z := Z.of_nat.

(** A stream that breaks off: a line, then a line of [MaxScanTokenSize]
    bytes, then more, ending in a connection error. *)
Definition brokenStream : ReadCloser :=
  mkReadCloser
    [bytes "ok" ++ [x0a];
     x41 :: repeat x41 (bufio.MaxScanTokenSize - 1);
     x0a :: bytes "lost" ++ [x0a]]
    (errorString "read tcp: connection reset by peer").

(** ** The first testable property, as the specification words it *)

(** "For all successful fetches, the number of emitted LogLine records
    equals the number of newline-delimited records in the source object,
    and their text values are emitted in source order": read here with
    the texts taken without a terminal carriage return. *)
Definition emits_every_record (MarshalJSON : LogLine.t -> option error)
           (Now : nat -> Z) (l : S3Logger) (ctx : Context) (config : Message.t)
  : Prop :=
  Message.Source config = "" ->
  forall reader,
    s3.GetObjectWithContext (s3Client l) ctx
      (s3.mkGetObjectInput (bucket l) (Message.ContainerID config)) = inl reader ->
    exists res tr,
      Log MarshalJSON Now l ctx config = Some (res, tr) /\
      map LogLine.Line (sent tr) = map text (records (content (s3.Body reader))).

(** ** The loop of [Log] over a list

    The [for scanner.Scan()] loop with the scanner put aside: it is handed
    the texts the scanner would yield, and does with each what [Log] does
    with [scanner.Text()].  [scanLoop] is compared with it below. *)

Section Emit.

Variable MarshalJSON : LogLine.t -> option error.
Variable Now : nat -> Z.
Variable ctx : Context.
Variable containerID : string.

Fixpoint emit (texts : list string) (k : nat) : Outcome * list Event :=
  match texts with
  | [] => (Returned None, [EvScan false])
  | logLine :: rest =>
      let configLine := LogLine.mk logLine containerID false (Now k) in
      match MarshalJSON configLine with
      | Some err =>
          (Returned (Some (Errorf "error marshalling log line: " err)),
           [EvScan true; EvNow; EvMarshal configLine])
      | None =>
          if Done ctx k then
            (Returned None, [EvScan true; EvNow; EvMarshal configLine; EvPoll true])
          else
            let '(res, tr) := emit rest (S k) in
            (res,
             [EvScan true; EvNow; EvMarshal configLine;
              EvPoll false; EvSend configLine] ++ tr)
      end
  end.

End Emit.

(** The texts [Log] can get out of a stream's bytes. *)
Definition texts (data : list byte) : list string :=
  map text (scannable (records data)).

(** A stream that stalls: a hundred and one reads in a row without a byte
    and without an error, whatever it would deliver after them. *)
Definition stalls (rd : ReadCloser) : Prop :=
  exists rest,
    chunks rd = repeat [] (S bufio.maxConsecutiveEmptyReads) ++ rest.

(** * Properties *)

(** ** The stream *)

Lemma Read_content (r : ReadCloser) (n : nat) p e rd :
  Read r n = (p, e, rd) -> content r = p ++ content rd.
Proof.
  unfold Read, content. destruct (chunks r) as [|c cs] eqn:Hc.
  - intros H. inversion H; subst. now rewrite Hc.
  - destruct (length c <=? n); intros H; inversion H; subst; cbn.
    + reflexivity.
    + now rewrite app_assoc, firstn_skipn.
Qed.

Lemma Read_length (r : ReadCloser) (n : nat) p e rd :
  Read r n = (p, e, rd) -> length p <= n.
Proof.
  unfold Read. destruct (chunks r) as [|c cs].
  - intros H. inversion H; subst. cbn. lia.
  - destruct (length c <=? n) eqn:Hle; intros H; inversion H; subst.
    + now apply Nat.leb_le.
    + rewrite length_firstn. lia.
Qed.

Lemma Read_error (r : ReadCloser) (n : nat) p e e' rd :
  Read r n = (p, e, rd) -> e = Some e' -> p = [] /\ rd = r /\ chunks r = [] /\ e' = final r.
Proof.
  unfold Read. destruct (chunks r) as [|c cs].
  - intros H He. inversion H; subst. inversion H2; subst. auto.
  - destruct (length c <=? n); intros H He; inversion H; subst; discriminate.
Qed.

(** ** The scanner *)

Module ScannerFacts.
Import bufio.

(** Reduces the projections of a scanner that is given by its fields. *)
Ltac fields := cbn [r buflen start pend token err empties end_].
Tactic Notation "fields" "in" hyp(H) :=
  cbn [r buflen start pend token err empties end_] in H.

Lemma setErr_fields s e :
  r (setErr s e) = r s /\ buflen (setErr s e) = buflen s /\
  start (setErr s e) = start s /\ pend (setErr s e) = pend s /\
  token (setErr s e) = token s.
Proof. unfold setErr. destruct (err s) as [[]|]; cbn; auto. Qed.

Lemma setErr_err s e : err (setErr s e) <> None.
Proof. unfold setErr. destruct (err s) as [[]|] eqn:H; cbn; congruence. Qed.

Lemma setErr_None s e :
  err s = None ->
  setErr s e =
  mkScanner (r s) (buflen s) (start s) (pend s) (token s) (Some e) (empties s).
Proof. unfold setErr. intros ->. reflexivity. Qed.

(** The read loop moves bytes from the stream to the window and changes
    nothing else but the error; it ends with bytes read or an error
    recorded. *)
Lemma readLoop_spec left s :
  err s = None -> end_ s <= buflen s ->
  exists q,
    pend (readLoop left s) = pend s ++ q /\
    content (r s) = q ++ content (r (readLoop left s)) /\
    final (r (readLoop left s)) = final (r s) /\
    start (readLoop left s) = start s /\
    buflen (readLoop left s) = buflen s /\
    end_ (readLoop left s) <= buflen s /\
    (0 < left -> err (readLoop left s) = None -> q <> []).
Proof.
  revert s. induction left as [|left IH]; intros s Herr Hend.
  - exists []. cbn. rewrite app_nil_r. repeat split; auto. lia.
  - cbn [readLoop].
    destruct (Read (r s) (buflen s - end_ s)) as [[p e] rd] eqn:HR.
    pose proof (Read_length _ _ _ _ _ HR) as Hlen.
    pose proof (Read_content _ _ _ _ _ HR) as Hcont.
    assert (Hfin : final rd = final (r s)).
    { unfold Read in HR. destruct (chunks (r s)); [|destruct (_ <=? _)];
        inversion HR; subst; reflexivity. }
    replace (buflen s - end_ s <? length p) with false
      by (symmetry; apply Nat.ltb_ge; lia).
    assert (Hend' : start s + length (pend s ++ p) <= buflen s).
    { rewrite length_app. unfold end_ in *. lia. }
    destruct e as [e'|].
    + rewrite setErr_None by exact Herr. cbn. unfold end_. cbn.
      exists p. repeat split; auto. intros _ H. discriminate.
    + destruct (0 <? length p) eqn:Hp.
      * exists p. cbn. unfold end_. cbn. repeat split; auto.
        intros _ _ ->. cbn in Hp. discriminate.
      * assert (p = []) as -> by (destruct p; [reflexivity|discriminate]).
        rewrite app_nil_r in Hend' |- *.
        destruct left as [|left'].
        -- rewrite setErr_None by exact Herr. cbn. unfold end_. cbn.
           exists []. rewrite app_nil_r. repeat split; auto.
           intros _ H. discriminate.
        -- destruct (IH (mkScanner rd (buflen s) (start s) (pend s) (token s) (err s)
                                   (empties s)) Herr Hend')
             as (q & H1 & H2 & H3 & H4 & H5 & H6 & H7).
           fields in H1; fields in H2; fields in H3; fields in H4;
             fields in H5; fields in H6.
           exists q.
           cbn in Hcont. rewrite Hcont.
           repeat split; auto; try congruence.
           intros _. apply H7. lia.
Qed.

(** *** The split function *)

Lemma IndexByte_lt data c i : IndexByte data c = Some i -> i < length data.
Proof.
  revert i. induction data as [|b t IH]; cbn; intros i H; [discriminate|].
  destruct (Byte.eqb b c).
  - inversion H. lia.
  - destruct (IndexByte t c) as [j|]; [|discriminate].
    inversion H. specialize (IH j eq_refl). lia.
Qed.

Lemma IndexByte_app p q c :
  IndexByte (p ++ q) c =
  match IndexByte p c with
  | Some i => Some i
  | None => option_map (Nat.add (length p)) (IndexByte q c)
  end.
Proof.
  induction p as [|b t IH]; cbn.
  - now destruct (IndexByte q c).
  - destruct (Byte.eqb b c); [reflexivity|]. rewrite IH.
    destruct (IndexByte t c); [reflexivity|].
    now destruct (IndexByte q c).
Qed.

(** *** One attempt at a token *)

Lemma tryToken_line s i :
  IndexByte (pend s) newline = Some i ->
  tryToken s =
  Decided ScanTrue
    (mkScanner (r s) (buflen s) (start s + (i + 1)) (skipn (i + 1) (pend s))
               (Some (dropCR (firstn i (pend s)))) (err s) 0).
Proof.
  intros Hi. pose proof (IndexByte_lt _ _ _ Hi) as Hlt.
  unfold tryToken, ScanLines. rewrite Hi.
  replace (0 <? length (pend s)) with true by (symmetry; apply Nat.ltb_lt; lia).
  replace (length (pend s) =? 0) with false by (symmetry; apply Nat.eqb_neq; lia).
  rewrite andb_false_r. cbn [orb].
  replace (length (pend s) <? i + 1) with false by (symmetry; apply Nat.ltb_ge; lia).
  replace (0 <? i + 1) with true by (symmetry; apply Nat.ltb_lt; lia).
  rewrite orb_true_r. reflexivity.
Qed.

Lemma tryToken_more s :
  IndexByte (pend s) newline = None -> err s = None ->
  exists tok,
    tryToken s =
    More (mkScanner (r s) (buflen s) (start s) (pend s) tok (err s) (empties s)).
Proof.
  intros Hi He. unfold tryToken, ScanLines. rewrite Hi, He. cbn [isNil negb andb orb].
  destruct (0 <? length (pend s)).
  - exists None. replace (length (pend s) <? 0) with false
      by (symmetry; apply Nat.ltb_ge; lia).
    now rewrite Nat.add_0_r.
  - exists (token s). cbn [orb]. destruct s; cbn in He |- *. now subst.
Qed.

Lemma tryToken_drained s e :
  pend s = [] -> err s = Some e ->
  tryToken s =
  More (mkScanner (r s) (buflen s) (start s) [] None (err s) (empties s)).
Proof.
  intros Hp He. unfold tryToken, ScanLines. rewrite Hp, He. cbn.
  now rewrite Nat.add_0_r.
Qed.

Lemma tryToken_last s e :
  IndexByte (pend s) newline = None -> pend s <> [] -> err s = Some e ->
  tryToken s =
  Decided ScanTrue
    (mkScanner (r s) (buflen s) (start s + length (pend s)) []
               (Some (dropCR (pend s))) (err s) 0).
Proof.
  intros Hi Hp He. unfold tryToken, ScanLines. rewrite Hi, He.
  cbn [isNil negb andb orb].
  assert (0 < length (pend s)) by (destruct (pend s); [congruence|cbn; lia]).
  replace (length (pend s) =? 0) with false by (symmetry; apply Nat.eqb_neq; lia).
  rewrite orb_true_r.
  replace (length (pend s) <? length (pend s)) with false
    by (symmetry; apply Nat.ltb_ge; lia).
  replace (0 <? length (pend s)) with true by (symmetry; apply Nat.ltb_lt; lia).
  now rewrite skipn_all.
Qed.

(** An attempt either yields a token, taking at least one byte off the
    window, or leaves the window as it is.  With [ScanLines] it neither
    fails nor panics. *)
Lemma tryToken_cases s :
  match tryToken s with
  | Decided res s' =>
      res = ScanTrue /\ r s' = r s /\ buflen s' = buflen s /\
      end_ s' = end_ s /\ length (pend s') < length (pend s)
  | More s1 =>
      r s1 = r s /\ buflen s1 = buflen s /\ start s1 = start s /\
      pend s1 = pend s /\ err s1 = err s
  end.
Proof.
  destruct (IndexByte (pend s) newline) as [i|] eqn:Hi.
  - rewrite (tryToken_line s i Hi). pose proof (IndexByte_lt _ _ _ Hi).
    unfold end_. fields. rewrite length_skipn. repeat split; lia.
  - destruct (err s) as [e|] eqn:He.
    + destruct (list_eq_dec Byte.byte_eq_dec (pend s) []) as [Hp|Hp].
      * rewrite (tryToken_drained s e Hp He). fields. rewrite Hp. auto.
      * rewrite (tryToken_last s e Hi Hp He).
        unfold end_. fields. destruct (pend s); [congruence|].
        cbn. repeat split; lia.
    + destruct (tryToken_more s Hi He) as (tok & ->). fields. auto.
Qed.

(** *** Making room *)

Lemma shift_fields s :
  r (shift s) = r s /\ buflen (shift s) = buflen s /\ pend (shift s) = pend s /\
  err (shift s) = err s /\ start (shift s) <= start s.
Proof.
  unfold shift. destruct (_ && _); fields; repeat split; lia.
Qed.

Lemma grow_Some s s' :
  end_ s <= buflen s -> grow s = Some s' ->
  r s' = r s /\ pend s' = pend s /\ err s' = err s /\
  end_ s' < buflen s' /\ buflen s <= buflen s'.
Proof.
  unfold grow, end_. intros Hend.
  destruct (start s + length (pend s) =? buflen s) eqn:Hfull.
  - destruct (MaxScanTokenSize <=? buflen s) eqn:Hmax; [discriminate|].
    apply Nat.leb_gt in Hmax. apply Nat.eqb_eq in Hfull.
    intros H. inversion H; subst; clear H. fields.
    assert (0 < startBufSize) by (unfold startBufSize; lia).
    destruct (buflen s * 2 =? 0) eqn:Hz;
      [apply Nat.eqb_eq in Hz | apply Nat.eqb_neq in Hz];
      repeat split; lia.
  - apply Nat.eqb_neq in Hfull. intros H. inversion H; subst.
    repeat split; lia.
Qed.

(** *** [Scan] *)

Lemma ScanFuel_S fuel s :
  ScanFuel (S fuel) s =
  match tryToken s with
  | Decided res s' => Some (res, s')
  | More s1 =>
      if negb (isNil (err s1)) then
        Some (ScanFalse,
              mkScanner (r s1) (buflen s1) 0 [] (token s1) (err s1) (empties s1))
      else
        match grow (shift s1) with
        | None => Some (ScanFalse, setErr (shift s1) ErrTooLong)
        | Some s3 => ScanFuel fuel (readLoop (maxConsecutiveEmptyReads + 1) s3)
        end
  end.
Proof. reflexivity. Qed.

(** The state in which a pass of the outer loop reads: nothing but the
    buffer geometry differs from the state at entry. *)
Lemma before_read s s1 s3 :
  end_ s <= buflen s ->
  tryToken s = More s1 -> err s1 = None -> grow (shift s1) = Some s3 ->
  r s3 = r s /\ pend s3 = pend s /\ err s3 = None /\ end_ s3 < buflen s3.
Proof.
  intros Hend Ht He Hg. pose proof (tryToken_cases s) as Hc. rewrite Ht in Hc.
  destruct Hc as (Hr & Hb & Hs & Hp & He').
  destruct (shift_fields s1) as (Hr2 & Hb2 & Hp2 & He2 & Hs2).
  assert (Hend2 : end_ (shift s1) <= buflen (shift s1)).
  { unfold end_ in *. rewrite Hb2, Hp2, Hb, Hp. lia. }
  destruct (grow_Some _ _ Hend2 Hg) as (Hr3 & Hp3 & He3 & Hend3 & _).
  repeat split; congruence || assumption.
Qed.

(** [Scan] returns [true] or [false], never panics, takes nothing back,
    and a token costs at least one unread byte. *)
Lemma ScanFuel_sound fuel : forall s res s',
  end_ s <= buflen s -> ScanFuel fuel s = Some (res, s') ->
  end_ s' <= buflen s' /\ res <> ScanPanic /\
  length (unread s') <= length (unread s) /\
  (res = ScanTrue -> length (unread s') < length (unread s)).
Proof.
  induction fuel as [|fuel IH]; intros s res s' Hend H; [discriminate|].
  rewrite ScanFuel_S in H. pose proof (tryToken_cases s) as Hc.
  destruct (tryToken s) as [res0 s0|s1] eqn:Ht.
  - destruct Hc as (-> & Hr & Hb & He & Hp). inversion H; subst; clear H.
    unfold unread. rewrite !length_app, Hr.
    repeat split; try lia; try discriminate.
  - destruct (err s1) as [e|] eqn:He1; cbn [isNil negb] in H.
    + destruct Hc as (Hr & Hb & Hs & Hp & He).
      inversion H; subst; clear H. unfold unread, end_. fields.
      rewrite !length_app, Hr. cbn.
      repeat split; try lia; try discriminate.
    + destruct (grow (shift s1)) as [s3|] eqn:Hg.
      * destruct (before_read _ _ _ Hend Ht He1 Hg) as (Hr3 & Hp3 & He3 & Hend3).
        apply Nat.lt_le_incl in Hend3.
        destruct (readLoop_spec (maxConsecutiveEmptyReads + 1) s3 He3 Hend3)
          as (q & Hq1 & Hq2 & _ & _ & Hq5 & Hq6 & _).
        rewrite <- Hq5 in Hq6.
        destruct (IH _ _ _ Hq6 H) as (G1 & G2 & G3 & G4).
        assert (Hu : length (unread (readLoop (maxConsecutiveEmptyReads + 1) s3))
                     = length (unread s)).
        { unfold unread. rewrite Hq1, <- Hr3, Hq2, Hp3, !length_app. lia. }
        rewrite Hu in G3, G4. auto.
      * destruct Hc as (Hr & Hb & Hs & Hp & He).
        destruct (shift_fields s1) as (Hr2 & Hb2 & Hp2 & He2 & Hs2).
        destruct (setErr_fields (shift s1) ErrTooLong) as (Hr4 & Hb4 & Hs4 & Hp4 & _).
        inversion H; subst; clear H. unfold unread, end_ in *.
        rewrite Hr4, Hb4, Hs4, Hp4, Hr2, Hb2, Hp2, Hr, Hb, Hp.
        repeat split; try lia; try discriminate.
Qed.

(** The outer loop of [Scan] ends: a pass that goes round has read from
    the stream or recorded an error. *)
Lemma ScanFuel_total fuel : forall s,
  end_ s <= buflen s -> passes s < fuel ->
  exists res s', ScanFuel fuel s = Some (res, s').
Proof.
  induction fuel as [|fuel IH]; intros s Hend Hfuel; [lia|].
  rewrite ScanFuel_S.
  destruct (tryToken s) as [res0 s0|s1] eqn:Ht; [eauto|].
  destruct (err s1) as [e|] eqn:He1; cbn [isNil negb]; [eauto|].
  destruct (grow (shift s1)) as [s3|] eqn:Hg; [|eauto].
  destruct (before_read _ _ _ Hend Ht He1 Hg) as (Hr3 & Hp3 & He3 & Hend3).
  apply Nat.lt_le_incl in Hend3.
  destruct (readLoop_spec (maxConsecutiveEmptyReads + 1) s3 He3 Hend3)
    as (q & _ & Hq2 & _ & _ & Hq5 & Hq6 & Hq7).
  rewrite <- Hq5 in Hq6. apply IH; [exact Hq6|].
  pose proof (tryToken_cases s) as Hc. rewrite Ht in Hc.
  destruct Hc as (_ & _ & _ & _ & He).
  unfold passes in *. rewrite <- He, He1 in Hfuel.
  destruct (err (readLoop (maxConsecutiveEmptyReads + 1) s3)) eqn:He4; [lia|].
  assert (q <> []) as Hq by (apply Hq7; [unfold maxConsecutiveEmptyReads; lia|reflexivity]).
  rewrite <- Hr3, Hq2, length_app in Hfuel.
  destruct q; [congruence|]. cbn [length] in Hfuel. lia.
Qed.

Lemma Scan_total s :
  end_ s <= buflen s -> exists res s', Scan s = Some (res, s').
Proof.
  intros Hend. apply ScanFuel_total; [exact Hend|].
  unfold passes, scanFuel. destruct (err s); lia.
Qed.

(** *** Records and [IndexByte] *)

Lemma records_line data i :
  IndexByte data newline = Some i ->
  records data = firstn i data :: records (skipn (S i) data).
Proof.
  revert i. induction data as [|b t IH]; intros i H; [discriminate|].
  cbn in H. cbn [records]. destruct (Byte.eqb b newline).
  - inversion H; subst. reflexivity.
  - destruct (IndexByte t newline) as [j|]; [|discriminate].
    inversion H; subst. rewrite (IH j eq_refl). reflexivity.
Qed.

Lemma records_last data :
  IndexByte data newline = None -> data <> [] -> records data = [data].
Proof.
  induction data as [|b t IH]; intros H Hne; [congruence|].
  cbn in H. cbn [records]. destruct (Byte.eqb b newline); [discriminate|].
  destruct (IndexByte t newline); [discriminate|].
  destruct t as [|b' t']; [reflexivity|].
  rewrite IH by (reflexivity || discriminate). reflexivity.
Qed.

(** *** Reading from a stream that delivers *)

Lemma readLoop_delivers n s :
  err s = None -> end_ s < buflen s -> delivers (r s) ->
  delivers (r (readLoop (S n) s)) /\
  (err (readLoop (S n) s) <> None ->
   chunks (r (readLoop (S n) s)) = [] /\ pend (readLoop (S n) s) = pend s).
Proof.
  intros Herr Hend Hdel. cbn [readLoop]. unfold Read, delivers in *.
  destruct (chunks (r s)) as [|c cs] eqn:Hc.
  - replace (buflen s - end_ s <? length (@nil byte)) with false
      by (symmetry; apply Nat.ltb_ge; cbn; lia).
    rewrite setErr_None by exact Herr. fields.
    rewrite Hc, app_nil_r. auto.
  - inversion Hdel as [|c' cs' Hne Hcs]; subst.
    assert (0 < length c) by (destruct c; [congruence|cbn; lia]).
    destruct (length c <=? buflen s - end_ s) eqn:Hle.
    + apply Nat.leb_le in Hle.
      replace (buflen s - end_ s <? length c) with false
        by (symmetry; apply Nat.ltb_ge; lia).
      replace (0 <? length c) with true by (symmetry; apply Nat.ltb_lt; lia).
      fields. cbn [chunks]. split; [exact Hcs|]. intros He. congruence.
    + apply Nat.leb_gt in Hle.
      rewrite length_firstn.
      replace (buflen s - end_ s <? Nat.min (buflen s - end_ s) (length c)) with false
        by (symmetry; apply Nat.ltb_ge; lia).
      replace (0 <? Nat.min (buflen s - end_ s) (length c)) with true
        by (symmetry; apply Nat.ltb_lt; lia).
      fields. cbn [chunks]. split; [|intros He; congruence].
      constructor; [|exact Hcs]. intros Hs.
      apply (f_equal (@length byte)) in Hs. rewrite length_skipn in Hs. cbn in Hs. lia.
Qed.

(** *** The token limit *)

Lemma MaxScanTokenSize_pos : 0 < MaxScanTokenSize.
Proof. unfold MaxScanTokenSize. lia. Qed.

Lemma grow_None s :
  grow s = None -> end_ s = buflen s /\ MaxScanTokenSize <= buflen s.
Proof.
  unfold grow. destruct (end_ s =? buflen s) eqn:Hfull; [|discriminate].
  destruct (MaxScanTokenSize <=? buflen s) eqn:Hmax; [|discriminate].
  intros _. split; [now apply Nat.eqb_eq|now apply Nat.leb_le].
Qed.

Lemma grow_le s s' :
  grow s = Some s' -> buflen s <= MaxScanTokenSize -> buflen s' <= MaxScanTokenSize.
Proof.
  unfold grow. destruct (end_ s =? buflen s).
  - destruct (MaxScanTokenSize <=? buflen s); [discriminate|].
    intros H _. inversion H; subst. fields. lia.
  - intros H. inversion H; subst. auto.
Qed.

(** A window that still fills the buffer after shifting starts at 0. *)
Lemma shift_full s :
  end_ s <= buflen s -> end_ (shift s) = buflen s -> length (pend s) = buflen s.
Proof.
  unfold shift, end_. intros Hend.
  destruct (0 <? start s) eqn:Hs; cbn [andb].
  - destruct (start s + length (pend s) =? buflen s) eqn:Hfull; cbn [orb].
    + fields. lia.
    + apply Nat.eqb_neq in Hfull.
      destruct (buflen s / 2 <? start s); fields; lia.
  - apply Nat.ltb_ge in Hs. lia.
Qed.

(** *** One call of [Scan], told by the records of the unread bytes

    Over a stream that delivers, [Scan] yields the first record of the
    unread bytes, without its terminal carriage return, and leaves the
    other records unread; it returns [false] when no byte is left, and
    also when the first record does not fit the token limit. *)
Lemma ScanFuel_spec fuel : forall s,
  wf s -> passes s < fuel ->
  match records (unread s) with
  | [] => exists s', ScanFuel fuel s = Some (ScanFalse, s')
  | rec :: rest =>
      if length rec <? MaxScanTokenSize then
        exists s',
          ScanFuel fuel s = Some (ScanTrue, s') /\
          token s' = Some (dropCR rec) /\ wf s' /\ records (unread s') = rest
      else exists s', ScanFuel fuel s = Some (ScanFalse, s')
  end.
Proof.
  induction fuel as [|fuel IH]; intros s Hwf Hfuel; [lia|].
  pose proof Hwf as (Hend & Hbuf & Hdel & Herr).
  pose proof MaxScanTokenSize_pos as Hmax.
  rewrite ScanFuel_S.
  destruct (IndexByte (pend s) newline) as [i|] eqn:Hi.
  - (* a whole line is in the window *)
    pose proof (IndexByte_lt _ _ _ Hi) as Hlt.
    assert (Hu : IndexByte (unread s) newline = Some i)
      by (unfold unread; now rewrite IndexByte_app, Hi).
    rewrite (records_line _ _ Hu).
    assert (Hfirst : firstn i (unread s) = firstn i (pend s)).
    { unfold unread. rewrite firstn_app.
      replace (i - length (pend s)) with 0 by lia. cbn. now rewrite app_nil_r. }
    rewrite Hfirst, length_firstn.
    replace (Nat.min i (length (pend s)) <? MaxScanTokenSize) with true
      by (symmetry; apply Nat.ltb_lt; unfold end_ in *; lia).
    rewrite (tryToken_line s i Hi). eexists. split; [reflexivity|].
    fields. split; [reflexivity|]. split.
    + unfold wf, end_ in *. fields. rewrite length_skipn.
      split; [lia|]. split; [lia|]. split; [exact Hdel|].
      intros He. destruct (Herr He). split; [assumption|lia].
    + unfold unread. fields. rewrite Nat.add_1_r, skipn_app.
      replace (S i - length (pend s)) with 0 by lia. reflexivity.
  - destruct (err s) as [e|] eqn:He.
    + (* the stream has ended *)
      destruct Herr as (Hch & Hlen); [discriminate|].
      assert (Hun : unread s = pend s)
        by (unfold unread, content; rewrite Hch; cbn; now rewrite app_nil_r).
      rewrite Hun.
      destruct (list_eq_dec Byte.byte_eq_dec (pend s) []) as [Hp|Hp].
      * rewrite Hp. cbn [records]. rewrite (tryToken_drained s e Hp He).
        fields. rewrite He. cbn. eauto.
      * rewrite (records_last _ Hi Hp).
        replace (length (pend s) <? MaxScanTokenSize) with true
          by (symmetry; apply Nat.ltb_lt; lia).
        rewrite (tryToken_last s e Hi Hp He). eexists. split; [reflexivity|].
        fields. split; [reflexivity|]. split.
        -- unfold wf, end_ in *. fields. cbn [length].
           split; [lia|]. split; [lia|]. split; [exact Hdel|].
           intros _. split; [assumption|lia].
        -- unfold unread, content. fields. now rewrite Hch.
    + (* more bytes are needed *)
      destruct (tryToken_more s Hi He) as (tok & Ht). rewrite Ht. fields.
      rewrite He. cbn [isNil negb].
      set (s1 := mkScanner (r s) (buflen s) (start s) (pend s) tok None (empties s)) in *.
      destruct (shift_fields s1) as (Hr2 & Hb2 & Hp2 & He2 & Hs2).
      assert (Hend1 : end_ s1 <= buflen s1) by exact Hend.
      destruct (grow (shift s1)) as [s3|] eqn:Hg.
      * assert (Ht' : tryToken s = More s1) by (rewrite Ht; unfold s1; now rewrite He).
        destruct (before_read _ _ _ Hend Ht' eq_refl Hg) as (Hr3 & Hp3 & He3 & Hend3).
        assert (Hb3 : buflen s3 <= MaxScanTokenSize)
          by (apply (grow_le _ _ Hg); rewrite Hb2; exact Hbuf).
        assert (Hdel3 : delivers (r s3)) by (rewrite Hr3; exact Hdel).
        rewrite Nat.add_1_r.
        destruct (readLoop_spec (S maxConsecutiveEmptyReads) s3 He3 (Nat.lt_le_incl _ _ Hend3))
          as (q & Hq1 & Hq2 & _ & Hq4 & Hq5 & Hq6 & Hq7).
        destruct (readLoop_delivers maxConsecutiveEmptyReads s3 He3 Hend3 Hdel3)
          as (Hd4 & He4).
        set (s4 := readLoop (S maxConsecutiveEmptyReads) s3) in *.
        assert (Hun : unread s4 = unread s).
        { unfold unread. rewrite Hq1, <- Hr3, Hq2, Hp3. now rewrite app_assoc. }
        rewrite <- Hun. apply IH.
        -- unfold wf. rewrite Hq5.
           split; [exact Hq6|]. split; [exact Hb3|]. split; [exact Hd4|].
           intros He5. destruct (He4 He5) as (Hc4 & Hp4).
           split; [exact Hc4|]. rewrite Hp4. unfold end_ in Hend3. lia.
        -- unfold passes in *. rewrite He in Hfuel.
           destruct (err s4) eqn:He4'; [lia|].
           assert (q <> []) as Hq by (apply Hq7; [lia|reflexivity]).
           rewrite <- Hr3, Hq2, length_app in Hfuel.
           destruct q; [congruence|]. cbn [length] in Hfuel. lia.
      * (* the buffer is full at the token limit *)
        destruct (grow_None _ Hg) as (Hfull & Hlim).
        rewrite Hb2 in Hfull, Hlim.
        pose proof (shift_full s1 Hend1 Hfull) as Hlen.
        unfold s1 in Hlen, Hlim. fields in Hlen. fields in Hlim.
        assert (Hu : IndexByte (unread s) newline =
                     option_map (Nat.add (length (pend s)))
                                (IndexByte (content (r s)) newline))
          by (unfold unread; now rewrite IndexByte_app, Hi).
        destruct (IndexByte (content (r s)) newline) as [j|] eqn:Hj; cbn in Hu.
        -- rewrite (records_line _ _ Hu), length_firstn.
           pose proof (IndexByte_lt _ _ _ Hu).
           replace (Nat.min (length (pend s) + j) (length (unread s)) <? MaxScanTokenSize)
             with false by (symmetry; apply Nat.ltb_ge; lia).
           eauto.
        -- assert (Hne : unread s <> []).
           { unfold unread. destruct (pend s); [cbn in Hlen; lia|discriminate]. }
           rewrite (records_last _ Hu Hne).
           replace (length (unread s) <? MaxScanTokenSize) with false
             by (symmetry; apply Nat.ltb_ge; unfold unread; rewrite length_app; lia).
           eauto.
Qed.

(** *** Scanners that differ in the error of the stream

    [Scan] looks at [s.err] only to tell whether it is [nil], so which
    error ended the stream does not show in what it returns. *)










End ScannerFacts.

(** ** Lists split at an event *)

Lemma split_cons {A : Type} (e x : A) rest pre post :
  e :: rest = pre ++ x :: post ->
  (pre = [] /\ e = x /\ rest = post) \/
  (exists pre', pre = e :: pre' /\ rest = pre' ++ x :: post).
Proof.
  destruct pre as [|a pre']; cbn; intros H; inversion H; subst; eauto.
Qed.

Lemma split_snoc {A : Type} (c x : A) l pre post :
  l ++ [c] = pre ++ x :: post -> x <> c ->
  exists post', post = post' ++ [c] /\ l = pre ++ x :: post'.
Proof.
  intros H Hx. destruct (exists_last (l:=x :: post)) as (m & z & Hm); [discriminate|].
  rewrite Hm, app_assoc in H. apply app_inj_tail in H as (-> & <-).
  destruct m as [|y m']; cbn in Hm; inversion Hm; subst.
  - contradiction.
  - eauto.
Qed.

Lemma sent_app tr1 tr2 : sent (tr1 ++ tr2) = sent tr1 ++ sent tr2.
Proof.
  induction tr1 as [|e tr1 IH]; [reflexivity|].
  destruct e; cbn; rewrite ?IH; reflexivity.
Qed.

(** Walks a split [e1 :: ... = pre ++ x :: post] down the events written
    out on the left. *)
Ltac walk H :=
  cbn [app] in H;
  match type of H with
  | [] = ?pre ++ _ :: _ => destruct pre; discriminate H
  | _ :: _ = ?pre ++ _ :: _ =>
      let pre' := fresh "pre" in
      let Hp := fresh "Hpre" in
      let He := fresh "Hev" in
      let Hr := fresh "Hrest" in
      destruct (split_cons _ _ _ _ _ H) as [(Hp & He & Hr)|(pre' & Hp & Hr)];
      clear H;
      [ try discriminate He | subst pre; rename Hr into H; walk H ]
  | _ => idtac
  end.

(** ** The loop of [Log] *)

Section LoopFacts.

Variable MarshalJSON : LogLine.t -> option error.
Variable Now : nat -> Z.
Variable ctx : Context.
Variable containerID : string.

(** Every run of the loop has the shape of [loopRun]; in particular the
    scanner never panics under it. *)
Lemma scanLoop_run fuel : forall s k res tr,
  bufio.end_ s <= bufio.buflen s ->
  scanLoop MarshalJSON Now fuel ctx containerID s k = Some (res, tr) ->
  loopRun MarshalJSON Now ctx containerID k res tr.
Proof.
  induction fuel as [|fuel IH]; intros s k res tr Hend H; [discriminate|].
  cbn [scanLoop] in H.
  destruct (bufio.Scan s) as [[ok s']|] eqn:HS; [|discriminate].
  destruct (ScannerFacts.ScanFuel_sound _ _ _ _ Hend HS) as (Hend' & Hok & _).
  destruct ok; [| |congruence].
  - destruct (MarshalJSON _) as [cause|] eqn:HM.
    + inversion H; subst. now constructor.
    + destruct (Done ctx k) eqn:HD.
      * inversion H; subst. now constructor.
      * destruct (scanLoop _ _ fuel _ _ s' (S k)) as [[res' tr']|] eqn:HL;
          [|discriminate].
        inversion H; subst. apply run_sent; eauto.
  - inversion H; subst. constructor.
Qed.

(** The loop ends: every iteration that goes round has taken a byte off
    the unread part of the stream. *)
Lemma scanLoop_total fuel : forall s k,
  bufio.end_ s <= bufio.buflen s -> length (bufio.unread s) < fuel ->
  exists res tr, scanLoop MarshalJSON Now fuel ctx containerID s k = Some (res, tr).
Proof.
  induction fuel as [|fuel IH]; intros s k Hend Hfuel; [lia|].
  cbn [scanLoop].
  destruct (ScannerFacts.Scan_total s Hend) as (ok & s' & HS). rewrite HS.
  destruct (ScannerFacts.ScanFuel_sound _ _ _ _ Hend HS) as (Hend' & _ & _ & Hlt).
  destruct ok; eauto.
  destruct (MarshalJSON _); [eauto|].
  destruct (Done ctx k); [eauto|].
  destruct (IH s' (S k) Hend') as (res & tr & ->); [specialize (Hlt eq_refl); lia|].
  eauto.
Qed.

(** *** What the shape of a run gives *)

Lemma run_lines k res tr :
  loopRun MarshalJSON Now ctx containerID k res tr ->
  Forall (fun line => LogLine.Source line = containerID /\ LogLine.Partial line = false)
         (sent tr).
Proof.
  induction 1; cbn; auto.
Qed.

Lemma run_no_close k res tr :
  loopRun MarshalJSON Now ctx containerID k res tr -> count isClose tr = 0.
Proof.
  induction 1; cbn; auto.
Qed.

Lemma run_no_fetch k res tr :
  loopRun MarshalJSON Now ctx containerID k res tr -> count isGetObject tr = 0.
Proof.
  induction 1; cbn; auto.
Qed.


(** A poll reports the context as it is after the lines sent so far. *)
Lemma run_poll k res tr :
  loopRun MarshalJSON Now ctx containerID k res tr ->
  forall pre b post, tr = pre ++ EvPoll b :: post ->
  b = Done ctx (k + length (sent pre)).
Proof.
  induction 1; intros pre b post Hsplit; walk Hsplit.
  - inversion Hev; subst. cbn. now rewrite Nat.add_0_r.
  - inversion Hev; subst. cbn. now rewrite Nat.add_0_r.
  - cbn. rewrite (IHloopRun _ _ _ Hsplit). f_equal. lia.
Qed.

(** A poll that sees the cancellation ends the loop with success. *)
Lemma run_cancel k res tr :
  loopRun MarshalJSON Now ctx containerID k res tr ->
  forall pre post, tr = pre ++ EvPoll true :: post ->
  res = Returned None /\ post = [].
Proof.
  induction 1; intros pre post Hsplit; walk Hsplit.
  - subst. auto.
  - eauto.
Qed.

(** A line is sent right after the poll that found the context live, and
    such a poll is followed by the send. *)
Lemma run_send_after_poll k res tr :
  loopRun MarshalJSON Now ctx containerID k res tr ->
  forall pre line post, tr = pre ++ EvSend line :: post ->
  exists pre', pre = pre' ++ [EvPoll false].
Proof.
  induction 1; intros pre line post Hsplit; walk Hsplit.
  - subst. eexists [_; _; _]. reflexivity.
  - destruct (IHloopRun _ _ _ Hsplit) as (pre' & ->).
    eexists (_ :: _ :: _ :: _ :: _ :: pre'). reflexivity.
Qed.

Lemma run_poll_then_send k res tr :
  loopRun MarshalJSON Now ctx containerID k res tr ->
  forall pre post, tr = pre ++ EvPoll false :: post ->
  exists line post', post = EvSend line :: post'.
Proof.
  induction 1; intros pre post Hsplit; walk Hsplit.
  - subst. eauto.
  - eauto.
Qed.

(** Once the context is cancelled, no line beyond those already sent goes
    out. *)
Lemma run_bound k res tr :
  loopRun MarshalJSON Now ctx containerID k res tr ->
  forall n, k <= n -> Done ctx n = true -> k + length (sent tr) <= n.
Proof.
  induction 1; intros n Hk Hn; cbn; try lia.
  assert (k <> n) by congruence.
  specialize (IHloopRun n ltac:(lia) Hn). lia.
Qed.

(** A failed encoding ends the loop with the wrapped error. *)
Lemma run_unencoded k res tr :
  loopRun MarshalJSON Now ctx containerID k res tr ->
  forall pre line cause post,
  tr = pre ++ EvMarshal line :: post -> MarshalJSON line = Some cause ->
  res = Returned (Some (Errorf "error marshalling log line: " cause)) /\ post = [].
Proof.
  induction 1; intros pre line cause' post Hsplit HM; walk Hsplit.
  - inversion Hev; subst. split; congruence.
  - inversion Hev; subst. congruence.
  - inversion Hev; subst. congruence.
  - eauto.
Qed.


(** *** The lines of a stream that delivers *)

(** With the encoder never failing and the context never cancelled, the
    loop sends the records of the unread bytes up to the first that does
    not fit the token limit, and returns [nil]. *)
Lemma scanLoop_scannable fuel : forall s k,
  bufio.wf s -> length (bufio.unread s) < fuel ->
  (forall line, MarshalJSON line = None) ->
  (forall n, Done ctx n = false) ->
  exists tr,
    scanLoop MarshalJSON Now fuel ctx containerID s k = Some (Returned None, tr) /\
    map LogLine.Line (sent tr) = map text (scannable (records (bufio.unread s))).
Proof.
  induction fuel as [|fuel IH]; intros s k Hwf Hfuel HM HD; [lia|].
  cbn [scanLoop]. unfold bufio.Scan.
  assert (Hp : bufio.passes s < bufio.scanFuel s)
    by (unfold bufio.passes, bufio.scanFuel; destruct (bufio.err s); lia).
  pose proof (ScannerFacts.ScanFuel_spec _ s Hwf Hp) as HS.
  destruct (records (bufio.unread s)) as [|rec rest]; cbn [scannable].
  - destruct HS as (s' & ->). eexists. split; reflexivity.
  - destruct (length rec <? bufio.MaxScanTokenSize).
    + destruct HS as (s' & HS & Htok & Hwf' & Hrest). rewrite HS, HM, HD.
      destruct (ScannerFacts.ScanFuel_sound _ _ _ _ (proj1 Hwf) HS) as (_ & _ & _ & Hlt).
      destruct (IH s' (S k) Hwf') as (tr & -> & Hmap); auto.
      { specialize (Hlt eq_refl). lia. }
      eexists. split; [reflexivity|].
      cbn [app sent map LogLine.Line]. rewrite Hmap, Hrest.
      unfold bufio.Text, text. now rewrite Htok.
    + destruct HS as (s' & ->). eexists. split; reflexivity.
Qed.


End LoopFacts.

(** ** [Log] *)

Section LogFacts.

Variable MarshalJSON : LogLine.t -> option error.
Variable Now : nat -> Z.

(** The three ways through [Log]: the request is not for a container's
    logs; the fetch fails; the object is opened, the loop runs and the
    body is closed. *)
Lemma Log_cases l ctx config :
  let input := s3.mkGetObjectInput (bucket l) (Message.ContainerID config) in
  (Message.Source config <> "" /\
   Log MarshalJSON Now l ctx config = Some (Returned None, [])) \/
  (exists cause,
     Message.Source config = "" /\
     s3.GetObjectWithContext (s3Client l) ctx input = inr cause /\
     Log MarshalJSON Now l ctx config =
     Some (Returned (Some (Errorf "failed to get object from S3: " cause)),
           [EvGetObject input])) \/
  (exists reader res tr,
     Message.Source config = "" /\
     s3.GetObjectWithContext (s3Client l) ctx input = inl reader /\
     Log MarshalJSON Now l ctx config =
     Some (res, EvGetObject input :: tr ++ [EvClose]) /\
     loopRun MarshalJSON Now ctx (Message.ContainerID config) 0 res tr).
Proof.
  intros input. unfold Log. fold input.
  destruct (String.eqb_spec (Message.Source config) "") as [Hsrc|Hsrc]; cbn [negb].
  - right. destruct (s3.GetObjectWithContext (s3Client l) ctx input)
      as [reader|cause] eqn:Hget.
    + right.
      destruct (scanLoop_total MarshalJSON Now ctx (Message.ContainerID config)
                  (loopFuel (s3.Body reader)) (bufio.NewScanner (s3.Body reader)) 0)
        as (res & tr & HL).
      * cbn. lia.
      * unfold loopFuel, bufio.unread. cbn. lia.
      * rewrite HL. exists reader, res, tr. repeat split; auto.
        eapply scanLoop_run; [|exact HL]. cbn. lia.
    + left. eauto.
  - left. auto.
Qed.

(** The events of the loop sit between the fetch and the close. *)
Lemma opened_split input tr pre x post :
  x <> EvClose -> x <> EvGetObject input ->
  EvGetObject input :: tr ++ [EvClose] = pre ++ x :: post ->
  exists pre' post',
    pre = EvGetObject input :: pre' /\ post = post' ++ [EvClose] /\
    tr = pre' ++ x :: post'.
Proof.
  intros Hc Hg H.
  destruct (split_cons _ _ _ _ _ H) as [(_ & He & _)|(pre' & -> & Hr)];
    [congruence|].
  destruct (split_snoc _ _ _ _ _ Hr Hc) as (post' & -> & ->). eauto.
Qed.

(** [Log] with a stream that delivers, an encoder that never fails and a
    context that is never cancelled. *)
Lemma Log_scannable l ctx config reader :
  Message.Source config = "" ->
  s3.GetObjectWithContext (s3Client l) ctx
    (s3.mkGetObjectInput (bucket l) (Message.ContainerID config)) = inl reader ->
  bufio.delivers (s3.Body reader) ->
  (forall line, MarshalJSON line = None) ->
  (forall n, Done ctx n = false) ->
  exists tr,
    Log MarshalJSON Now l ctx config = Some (Returned None, tr) /\
    map LogLine.Line (sent tr) =
    map text (scannable (records (content (s3.Body reader)))).
Proof.
  intros Hsrc Hget Hdel HM HD. unfold Log. rewrite Hsrc, Hget. cbn [String.eqb negb].
  destruct (scanLoop_scannable MarshalJSON Now ctx (Message.ContainerID config)
              (loopFuel (s3.Body reader)) (bufio.NewScanner (s3.Body reader)) 0)
    as (tr & -> & Hmap); auto.
  - unfold bufio.wf, bufio.end_, bufio.NewScanner.
    cbn [bufio.r bufio.buflen bufio.start bufio.pend bufio.err length Nat.add].
    split; [lia|]. split; [lia|]. split; [exact Hdel|]. congruence.
  - unfold loopFuel, bufio.unread. cbn. lia.
  - eexists. split; [reflexivity|].
    cbn [sent]. rewrite sent_app, app_nil_r. exact Hmap.
Qed.

End LogFacts.

(** ** The token limit, tried

    A line of [MaxScanTokenSize - 1] bytes before its newline is the
    longest that passes; [brokenStream], with one byte more, stops at it. *)

Example Log_longest_line :
  option_map
    (fun run => (fst run, map (fun line => N.of_nat (String.length (LogLine.Line line)))
                              (sent (snd run))))
    (Log encodes clock
         (relay (mkReadCloser
                   [bytes "ok" ++ [x0a];
                    repeat x41 (bufio.MaxScanTokenSize - 1);
                    x0a :: bytes "kept" ++ [x0a]] EOF))
         live (Message.mk "abc123" ""))
  = Some (Returned None, [2%N; 65535%N; 4%N]).
Proof. vm_compute. reflexivity. Qed.

Example Log_line_too_long :
  option_map
    (fun run => (fst run, map (fun line => N.of_nat (String.length (LogLine.Line line)))
                              (sent (snd run))))
    (Log encodes clock (relay brokenStream) live (Message.mk "abc123" ""))
  = Some (Returned None, [2%N]).
Proof. vm_compute. reflexivity. Qed.

(** * The claims *)

(** C5. A request whose source tag is not empty is a silent no-op: [Log]
    returns [nil] and does nothing, so it fetches nothing and sends
    nothing. *)
Theorem Log_skips_tagged_source MarshalJSON Now l ctx config :
  Message.Source config <> "" ->
  Log MarshalJSON Now l ctx config = Some (Returned None, []).
Proof.
  intros Hsrc. unfold Log.
  destruct (String.eqb_spec (Message.Source config) ""); [contradiction|].
  reflexivity.
Qed.

Lemma Log_skips_tagged_source_witness :
  Log encodes clock (relay (mkReadCloser [threeLines] EOF)) live
      (Message.mk "abc123" "stderr") = Some (Returned None, []).
Proof.
  apply Log_skips_tagged_source. cbn. discriminate.
Defined.

(** C3. When the fetch fails, [Log] returns the error
    "failed to get object from S3: " followed by the text of the cause,
    after the one call to the store: nothing is sent, nothing is closed,
    and the fetch is not tried again. *)
Theorem Log_fetch_failure MarshalJSON Now l ctx config cause :
  Message.Source config = "" ->
  s3.GetObjectWithContext (s3Client l) ctx
    (s3.mkGetObjectInput (bucket l) (Message.ContainerID config)) = inr cause ->
  exists tr,
    Log MarshalJSON Now l ctx config =
    Some (Returned (Some (errorString
            (String.append "failed to get object from S3: " (Error cause)))), tr) /\
    tr = [EvGetObject (s3.mkGetObjectInput (bucket l) (Message.ContainerID config))] /\
    sent tr = [] /\ count isGetObject tr = 1 /\ count isClose tr = 0.
Proof.
  intros Hsrc Hget. unfold Log. rewrite Hsrc, Hget. cbn [String.eqb negb].
  eexists. split; [reflexivity|]. repeat split.
Qed.

Lemma Log_fetch_failure_witness :
  exists tr,
    Log encodes clock (relay (mkReadCloser [threeLines] EOF)) live
        (Message.mk "missing-obj" "") =
    Some (Returned (Some (errorString
            "failed to get object from S3: NoSuchKey: The specified key does not exist.")),
          tr) /\
    tr = [EvGetObject (s3.mkGetObjectInput "logs-test" "missing-obj")] /\
    sent tr = [] /\ count isGetObject tr = 1 /\ count isClose tr = 0.
Proof.
  apply (Log_fetch_failure encodes clock (relay (mkReadCloser [threeLines] EOF)) live
           (Message.mk "missing-obj" "")
           (errorString "NoSuchKey: The specified key does not exist."));
    reflexivity.
Defined.

(** C4. Every line [Log] sends carries the request's container identifier
    as its source and is not partial. *)
Theorem Log_lines_carry_container MarshalJSON Now l ctx config :
  exists res tr,
    Log MarshalJSON Now l ctx config = Some (res, tr) /\
    Forall (fun line =>
              LogLine.Source line = Message.ContainerID config /\
              LogLine.Partial line = false)
           (sent tr).
Proof.
  destruct (Log_cases MarshalJSON Now l ctx config)
    as [(_ & HL)|[(cause & _ & _ & HL)|(reader & res & tr & _ & _ & HL & Hrun)]];
    eexists _, _; (split; [exact HL|]); cbn [sent]; auto.
  rewrite sent_app, app_nil_r. eapply run_lines. exact Hrun.
Qed.

(** C9. When the object was opened, the body is closed exactly once, as
    the last thing [Log] does, however the loop ended. *)
Theorem Log_closes_body_once MarshalJSON Now l ctx config reader :
  Message.Source config = "" ->
  s3.GetObjectWithContext (s3Client l) ctx
    (s3.mkGetObjectInput (bucket l) (Message.ContainerID config)) = inl reader ->
  exists res tr,
    Log MarshalJSON Now l ctx config = Some (res, tr ++ [EvClose]) /\
    count isClose tr = 0 /\ count isClose (tr ++ [EvClose]) = 1.
Proof.
  intros Hsrc Hget.
  destruct (Log_cases MarshalJSON Now l ctx config)
    as [(Hn & _)|[(cause & _ & Hg & _)|(reader' & res & tr & _ & _ & HL & Hrun)]];
    [contradiction|congruence|].
  exists res, (EvGetObject (s3.mkGetObjectInput (bucket l) (Message.ContainerID config))
               :: tr).
  pose proof (run_no_close _ _ _ _ _ _ _ Hrun) as Hc.
  split; [exact HL|]. unfold count in *. cbn [filter isClose app].
  split; [exact Hc|]. rewrite filter_app, length_app, Hc. reflexivity.
Qed.

Lemma Log_closes_body_once_witness :
  exists res tr,
    Log encodes clock (relay (mkReadCloser [threeLines] EOF)) (cancelledFrom 1)
        (Message.mk "abc123" "") = Some (res, tr ++ [EvClose]) /\
    count isClose tr = 0 /\ count isClose (tr ++ [EvClose]) = 1.
Proof.
  apply (Log_closes_body_once encodes clock (relay (mkReadCloser [threeLines] EOF))
           (cancelledFrom 1) (Message.mk "abc123" "")
           (s3.mkGetObjectOutput (mkReadCloser [threeLines] EOF)));
    reflexivity.
Defined.

(** C8. [Capabilities] is a constant: whatever the logger, it answers
    that logs and configuration cannot be read. *)
Theorem Capabilities_constant :
  (forall l, Capabilities.ReadLogs (Capabilities l) = false /\
             Capabilities.ReadConfig (Capabilities l) = false) /\
  (forall l l', Capabilities l = Capabilities l').
Proof.
  split; [intros l; split|intros l l']; reflexivity.
Qed.

(** C10. Without a bucket name, [main] prints its message to standard
    output and exits with status 1, before it creates a session or a
    client and before it registers the plugin. *)
Theorem main_requires_bucket :
  forall env,
    main "" env = ([Println "Please provide an S3 bucket name"], Exit 1) /\
    (1 <> 0)%Z.
Proof.
  intros env. split; [reflexivity|discriminate].
Qed.

(** C2. Cancellation is polled once for each line, right before the line
    is sent: a poll tells how the context is after the lines sent so far,
    a line is sent only right after a poll that found the context live,
    and such a poll is followed by the send.  A poll that sees the
    cancellation makes [Log] return [nil] with nothing further done but
    closing the body; so once the context is cancelled after [n] lines,
    no more than [n] lines go out, whatever is left in the stream. *)
Theorem Log_cancellation MarshalJSON Now l ctx config :
  exists res tr,
    Log MarshalJSON Now l ctx config = Some (res, tr) /\
    (forall pre b post,
       tr = pre ++ EvPoll b :: post -> b = Done ctx (length (sent pre))) /\
    (forall pre post,
       tr = pre ++ EvPoll true :: post ->
       res = Returned None /\ post = [EvClose] /\ sent tr = sent pre) /\
    (forall pre line post,
       tr = pre ++ EvSend line :: post -> exists pre', pre = pre' ++ [EvPoll false]) /\
    (forall pre post,
       tr = pre ++ EvPoll false :: post -> exists line post', post = EvSend line :: post') /\
    (forall n, Done ctx n = true -> length (sent tr) <= n).
Proof.
  destruct (Log_cases MarshalJSON Now l ctx config)
    as [(_ & HL)|[(cause & _ & _ & HL)|(reader & res & tr & _ & _ & HL & Hrun)]];
    eexists _, _; (split; [exact HL|]).
  - repeat split; intros; try (walk H); cbn; lia.
  - repeat split; intros; try (walk H); cbn; lia.
  - split; [|split; [|split; [|split]]].
    + intros pre b post H.
      apply opened_split in H as (pre' & post' & Hpre & Hpost & Htr);
        [subst pre post|discriminate|discriminate].
      exact (run_poll _ _ _ _ _ _ _ Hrun _ _ _ Htr).
    + intros pre post H.
      apply opened_split in H as (pre' & post' & Hpre & Hpost & Htr);
        [subst pre post|discriminate|discriminate].
      destruct (run_cancel _ _ _ _ _ _ _ Hrun _ _ Htr) as (Hres & Hpost).
      subst res post'. repeat split.
      rewrite Htr. cbn [sent]. rewrite !sent_app. cbn. now rewrite !app_nil_r.
    + intros pre line post H.
      apply opened_split in H as (pre' & post' & Hpre & Hpost & Htr);
        [subst pre post|discriminate|discriminate].
      destruct (run_send_after_poll _ _ _ _ _ _ _ Hrun _ _ _ Htr) as (p & ->).
      now exists (EvGetObject
                    (s3.mkGetObjectInput (bucket l) (Message.ContainerID config)) :: p).
    + intros pre post H.
      apply opened_split in H as (pre' & post' & Hpre & Hpost & Htr);
        [subst pre post|discriminate|discriminate].
      destruct (run_poll_then_send _ _ _ _ _ _ _ Hrun _ _ Htr) as (line & p & ->).
      now exists line, (p ++ [EvClose]).
    + intros n Hn. cbn [sent]. rewrite sent_app, length_app. cbn.
      pose proof (run_bound _ _ _ _ _ _ _ Hrun n ltac:(lia) Hn). lia.
Qed.

(** The scenario of the specification with the context cancelled after
    one line: the second poll sees it, one line is out, [Log] returns
    [nil]. *)
Lemma Log_cancellation_witness :
  exists res tr,
    Log encodes clock (relay (mkReadCloser [threeLines] EOF)) (cancelledFrom 1)
        (Message.mk "abc123" "") = Some (res, tr) /\
    res = Returned None /\ map LogLine.Line (sent tr) = ["line1"] /\
    length (sent tr) <= 1.
Proof.
  destruct (Log_cancellation encodes clock (relay (mkReadCloser [threeLines] EOF))
              (cancelledFrom 1) (Message.mk "abc123" ""))
    as (res & tr & HL & _ & Hcancel & _ & _ & Hbound).
  exists res, tr. split; [exact HL|].
  vm_compute in HL. injection HL as <- <-.
  pose (line1 := LogLine.mk "line1" "abc123" false 0%Z).
  pose (line2 := LogLine.mk "line2" "abc123" false 1%Z).
  split; [|split].
  - apply (Hcancel [EvGetObject (s3.mkGetObjectInput "logs-test" "abc123");
                    EvScan true; EvNow; EvMarshal line1; EvPoll false; EvSend line1;
                    EvScan true; EvNow; EvMarshal line2] [EvClose]).
    reflexivity.
  - reflexivity.
  - apply Hbound. reflexivity.
Defined.

(** C6. When encoding a line fails, [Log] returns the error
    "error marshalling log line: " followed by the text of the cause and
    does nothing further but closing the body: neither that line nor any
    later one is sent. *)
Theorem Log_encoding_failure MarshalJSON Now l ctx config :
  exists res tr,
    Log MarshalJSON Now l ctx config = Some (res, tr) /\
    forall pre line cause post,
      tr = pre ++ EvMarshal line :: post -> MarshalJSON line = Some cause ->
      res = Returned (Some (errorString
              (String.append "error marshalling log line: " (Error cause)))) /\
      post = [EvClose] /\ sent tr = sent pre.
Proof.
  destruct (Log_cases MarshalJSON Now l ctx config)
    as [(_ & HL)|[(cause & _ & _ & HL)|(reader & res & tr & _ & _ & HL & Hrun)]];
    eexists _, _; (split; [exact HL|]); intros pre line cause' post H HM;
    [walk H|walk H|].
  apply opened_split in H as (pre' & post' & Hpre & Hpost & Htr);
    [subst pre post|discriminate|discriminate].
  destruct (run_unencoded _ _ _ _ _ _ _ Hrun _ _ _ _ Htr HM) as (Hres & Hpost).
  subst res post'. repeat split.
  rewrite Htr. cbn [sent]. rewrite !sent_app. cbn. now rewrite !app_nil_r.
Qed.

(** The scenario of the specification with an encoder that fails on the
    second line. *)
Lemma Log_encoding_failure_witness :
  exists res tr,
    Log (rejects "line2") clock (relay (mkReadCloser [threeLines] EOF)) live
        (Message.mk "abc123" "") = Some (res, tr) /\
    res = Returned (Some (errorString
            "error marshalling log line: json: unsupported value")) /\
    map LogLine.Line (sent tr) = ["line1"].
Proof.
  destruct (Log_encoding_failure (rejects "line2") clock
              (relay (mkReadCloser [threeLines] EOF)) live (Message.mk "abc123" ""))
    as (res & tr & HL & Hfail).
  exists res, tr. split; [exact HL|].
  vm_compute in HL. injection HL as <- <-.
  pose (line1 := LogLine.mk "line1" "abc123" false 0%Z).
  pose (line2 := LogLine.mk "line2" "abc123" false 1%Z).
  split; [|reflexivity].
  apply (Hfail [EvGetObject (s3.mkGetObjectInput "logs-test" "abc123");
                EvScan true; EvNow; EvMarshal line1; EvPoll false; EvSend line1;
                EvScan true; EvNow] line2 (errorString "json: unsupported value")
               [EvClose]);
    reflexivity.
Defined.



(** ** The records of a successful fetch *)

Lemma scannable_all recs :
  Forall (fun rec => length rec < bufio.MaxScanTokenSize) recs ->
  scannable recs = recs.
Proof.
  induction 1 as [|rec recs Hrec _ IH]; [reflexivity|].
  cbn [scannable]. apply Nat.ltb_lt in Hrec. now rewrite Hrec, IH.
Qed.

(** C1, as the specification words it, fails when the context is
    cancelled: the object of three records is opened, the first poll sees
    the cancellation, and no line is sent. *)
Lemma emits_every_record_counterexample :
  ~ emits_every_record encodes clock (relay (mkReadCloser [threeLines] EOF))
      (cancelledFrom 0) (Message.mk "abc123" "").
Proof.
  intros H.
  destruct (H eq_refl (s3.mkGetObjectOutput (mkReadCloser [threeLines] EOF)) eq_refl)
    as (res & tr & HL & Hmap).
  vm_compute in HL. injection HL as <- <-.
  vm_compute in Hmap. discriminate.
Qed.

(** C1, amended.  When the object is opened and its stream is read to the
    end ([io.EOF]) with every read before delivering, no line fails to
    encode, the context is not cancelled and every record is shorter than
    the scanner's token limit, [Log] returns [nil] and the texts it sends
    are the newline-delimited records of the object's bytes, each without
    its terminal carriage return, in their order; so there are as many
    lines as records. *)
Theorem Log_emits_records MarshalJSON Now l ctx config reader :
  Message.Source config = "" ->
  s3.GetObjectWithContext (s3Client l) ctx
    (s3.mkGetObjectInput (bucket l) (Message.ContainerID config)) = inl reader ->
  final (s3.Body reader) = EOF ->
  bufio.delivers (s3.Body reader) ->
  (forall line, MarshalJSON line = None) ->
  (forall n, Done ctx n = false) ->
  Forall (fun rec => length rec < bufio.MaxScanTokenSize)
         (records (content (s3.Body reader))) ->
  exists tr,
    Log MarshalJSON Now l ctx config = Some (Returned None, tr) /\
    map LogLine.Line (sent tr) = map text (records (content (s3.Body reader))) /\
    length (sent tr) = length (records (content (s3.Body reader))).
Proof.
  intros Hsrc Hget _ Hdel HM HD Hshort.
  destruct (Log_scannable MarshalJSON Now l ctx config reader Hsrc Hget Hdel HM HD)
    as (tr & HL & Hmap).
  rewrite (scannable_all _ Hshort) in Hmap.
  exists tr. split; [exact HL|]. split; [exact Hmap|].
  apply (f_equal (@length string)) in Hmap. now rewrite !length_map in Hmap.
Qed.

(** The scenario of the specification: three lines, in order. *)
Lemma Log_emits_records_witness :
  exists tr,
    Log encodes clock (relay (mkReadCloser [threeLines] EOF)) live
        (Message.mk "abc123" "") = Some (Returned None, tr) /\
    map LogLine.Line (sent tr) = ["line1"; "line2"; "line3"] /\
    length (sent tr) = 3.
Proof.
  assert (Hrecs : records threeLines = [bytes "line1"; bytes "line2"; bytes "line3"])
    by (vm_compute; reflexivity).
  destruct (Log_emits_records encodes clock (relay (mkReadCloser [threeLines] EOF)) live
              (Message.mk "abc123" "")
              (s3.mkGetObjectOutput (mkReadCloser [threeLines] EOF)))
    as (tr & HL & Hmap & Hlen); try reflexivity.
  - repeat constructor. discriminate.
  - unfold content. cbn [s3.Body chunks concat]. rewrite app_nil_r, Hrecs.
    repeat (apply Forall_cons; [apply Nat.ltb_lt; vm_compute; reflexivity|]).
    apply Forall_nil.
  - unfold content in Hmap, Hlen. cbn [s3.Body chunks concat] in Hmap, Hlen.
    rewrite app_nil_r, Hrecs in Hmap, Hlen.
    exists tr. split; [exact HL|]. split; [exact Hmap|exact Hlen].
Defined.

(** * Further properties of [Log] and [main] *)

(** ** Every run *)

Section RunFacts.

Variable MarshalJSON : LogLine.t -> option error.
Variable Now : nat -> Z.
Variable ctx : Context.
Variable containerID : string.

(** The loop gives an error only for a line that failed to encode, and
    that line's encoding is the last thing it did. *)
Lemma run_error k res tr :
  loopRun MarshalJSON Now ctx containerID k res tr ->
  forall e, res = Returned (Some e) ->
  exists pre line cause,
    tr = pre ++ [EvMarshal line] /\ MarshalJSON line = Some cause /\
    e = Errorf "error marshalling log line: " cause.
Proof.
  induction 1; intros e He; try discriminate.
  - inversion He; subst. eexists [_; _], _, _. repeat split. assumption.
  - destruct (IHloopRun e He) as (pre & line & cause & -> & HM & ->).
    eexists (_ :: _ :: _ :: _ :: _ :: pre), line, cause. repeat split. assumption.
Qed.

(** The [i]-th line sent carries the time of the [i]-th call of
    [time.Now]. *)
Lemma run_timestamps k res tr :
  loopRun MarshalJSON Now ctx containerID k res tr ->
  map LogLine.Timestamp (sent tr) = map Now (seq k (length (sent tr))).
Proof.
  induction 1; cbn; try reflexivity. now rewrite IHloopRun.
Qed.

(** What is sent is the line built and encoded in the same iteration. *)
Lemma run_send_encoded k res tr :
  loopRun MarshalJSON Now ctx containerID k res tr ->
  forall pre line post, tr = pre ++ EvSend line :: post ->
  MarshalJSON line = None /\
  exists pre', pre = pre' ++ [EvScan true; EvNow; EvMarshal line; EvPoll false].
Proof.
  induction 1; intros pre line post Hsplit; walk Hsplit.
  - inversion Hev; subst. split; [assumption|]. now exists [].
  - destruct (IHloopRun _ _ _ Hsplit) as (HM & pre' & ->). split; [exact HM|].
    now eexists (_ :: _ :: _ :: _ :: _ :: pre').
Qed.

End RunFacts.


(** X2. The only errors [Log] returns are the failed fetch and the failed
    encoding of a line, each with the text of its cause; in the second
    case encoding that line was the last thing done before closing.  An
    error of the stream never comes back. *)
Theorem Log_error_origin MarshalJSON Now l ctx config :
  exists res tr,
    Log MarshalJSON Now l ctx config = Some (res, tr) /\
    forall e, res = Returned (Some e) ->
      (exists cause,
         s3.GetObjectWithContext (s3Client l) ctx
           (s3.mkGetObjectInput (bucket l) (Message.ContainerID config)) = inr cause /\
         e = Errorf "failed to get object from S3: " cause) \/
      (exists pre line cause,
         tr = pre ++ [EvMarshal line; EvClose] /\
         MarshalJSON line = Some cause /\
         e = Errorf "error marshalling log line: " cause).
Proof.
  destruct (Log_cases MarshalJSON Now l ctx config)
    as [(_ & HL)|[(cause & _ & Hget & HL)|(reader & res & tr & _ & _ & HL & Hrun)]];
    eexists _, _; (split; [exact HL|]); intros e He.
  - discriminate.
  - inversion He; subst. left. eauto.
  - right. destruct (run_error _ _ _ _ _ _ _ Hrun e He)
      as (pre & line & cause & -> & HM & ->).
    exists (EvGetObject (s3.mkGetObjectInput (bucket l) (Message.ContainerID config))
            :: pre), line, cause.
    repeat split; [|assumption]. cbn. now rewrite <- app_assoc.
Qed.

Lemma Log_error_origin_witness :
  exists res tr,
    Log (rejects "line2") clock (relay (mkReadCloser [threeLines] EOF)) live
        (Message.mk "abc123" "") = Some (res, tr) /\
    exists pre line cause,
      tr = pre ++ [EvMarshal line; EvClose] /\
      rejects "line2" line = Some cause /\
      errorString "error marshalling log line: json: unsupported value" =
      Errorf "error marshalling log line: " cause.
Proof.
  destruct (Log_error_origin (rejects "line2") clock
              (relay (mkReadCloser [threeLines] EOF)) live
              (Message.mk "abc123" "")) as (res & tr & HL & Horigin).
  exists res, tr. split; [exact HL|].
  destruct (Horigin (errorString "error marshalling log line: json: unsupported value"))
    as [(cause & Hget & _)|Hline].
  - clear Horigin. vm_compute in HL. injection HL as <- <-. reflexivity.
  - discriminate Hget.
  - exact Hline.
Defined.

(** X3. A request for a container's logs is answered with one fetch, the
    first thing [Log] does: of the object whose key is the container
    identifier, in the logger's bucket. *)
Theorem Log_fetches_once MarshalJSON Now l ctx config :
  Message.Source config = "" ->
  exists res tr,
    Log MarshalJSON Now l ctx config =
    Some (res, EvGetObject (s3.mkGetObjectInput (bucket l) (Message.ContainerID config))
               :: tr) /\
    count isGetObject tr = 0.
Proof.
  intros Hsrc.
  destruct (Log_cases MarshalJSON Now l ctx config)
    as [(Hn & _)|[(cause & _ & _ & HL)|(reader & res & tr & _ & _ & HL & Hrun)]];
    [contradiction| |]; eexists _, _; (split; [exact HL|]); [reflexivity|].
  pose proof (run_no_fetch _ _ _ _ _ _ _ Hrun) as Hc.
  unfold count in *. now rewrite filter_app, length_app, Hc.
Qed.

Lemma Log_fetches_once_witness :
  exists res tr,
    Log encodes clock (relay (mkReadCloser [threeLines] EOF)) live
        (Message.mk "abc123" "") =
    Some (res, EvGetObject (s3.mkGetObjectInput "logs-test" "abc123") :: tr) /\
    count isGetObject tr = 0.
Proof.
  apply (Log_fetches_once encodes clock (relay (mkReadCloser [threeLines] EOF)) live
           (Message.mk "abc123" "")).
  reflexivity.
Defined.

(** X4. The lines sent carry the times of the successive calls of
    [time.Now], one call for each line scanned: the [i]-th line sent has
    the time of the [i]-th call. *)
Theorem Log_timestamps MarshalJSON Now l ctx config :
  exists res tr,
    Log MarshalJSON Now l ctx config = Some (res, tr) /\
    map LogLine.Timestamp (sent tr) = map Now (seq 0 (length (sent tr))).
Proof.
  destruct (Log_cases MarshalJSON Now l ctx config)
    as [(_ & HL)|[(cause & _ & _ & HL)|(reader & res & tr & _ & _ & HL & Hrun)]];
    eexists _, _; (split; [exact HL|]); try reflexivity.
  cbn [sent]. rewrite sent_app, app_nil_r.
  exact (run_timestamps _ _ _ _ _ _ _ Hrun).
Qed.

(** X5. A line goes out only after it was encoded without error: the send
    follows, in the same iteration, the scan, the call of [time.Now], the
    encoding of that very line and the poll. *)
Theorem Log_sends_encoded_line MarshalJSON Now l ctx config :
  exists res tr,
    Log MarshalJSON Now l ctx config = Some (res, tr) /\
    forall pre line post,
      tr = pre ++ EvSend line :: post ->
      MarshalJSON line = None /\
      exists pre', pre = pre' ++ [EvScan true; EvNow; EvMarshal line; EvPoll false].
Proof.
  destruct (Log_cases MarshalJSON Now l ctx config)
    as [(_ & HL)|[(cause & _ & _ & HL)|(reader & res & tr & _ & _ & HL & Hrun)]];
    eexists _, _; (split; [exact HL|]); intros pre line post H;
    [walk H|walk H|].
  apply opened_split in H as (pre' & post' & Hpre & Hpost & Htr);
    [subst pre post|discriminate|discriminate].
  destruct (run_send_encoded _ _ _ _ _ _ _ Hrun _ _ _ Htr) as (HM & p & ->).
  split; [exact HM|].
  now exists (EvGetObject (s3.mkGetObjectInput (bucket l) (Message.ContainerID config))
              :: p).
Qed.

Lemma Log_sends_encoded_line_witness :
  exists res tr,
    Log (rejects "line3") clock (relay (mkReadCloser [threeLines] EOF)) live
        (Message.mk "abc123" "") = Some (res, tr) /\
    rejects "line3" (LogLine.mk "line2" "abc123" false 1%Z) = None /\
    map LogLine.Line (sent tr) = ["line1"; "line2"].
Proof.
  destruct (Log_sends_encoded_line (rejects "line3") clock
              (relay (mkReadCloser [threeLines] EOF)) live (Message.mk "abc123" ""))
    as (res & tr & HL & Hsend).
  exists res, tr. split; [exact HL|].
  vm_compute in HL. injection HL as <- <-.
  pose (line1 := LogLine.mk "line1" "abc123" false 0%Z).
  pose (line2 := LogLine.mk "line2" "abc123" false 1%Z).
  pose (line3 := LogLine.mk "line3" "abc123" false 2%Z).
  split; [|reflexivity].
  apply (Hsend [EvGetObject (s3.mkGetObjectInput "logs-test" "abc123");
                EvScan true; EvNow; EvMarshal line1; EvPoll false; EvSend line1;
                EvScan true; EvNow; EvMarshal line2; EvPoll false]
               line2
               [EvScan true; EvNow; EvMarshal line3; EvClose]).
  reflexivity.
Defined.

(** ** Tokens hold no newline *)

Module TokenFacts.
Import bufio ScannerFacts.

Lemma IndexByte_firstn data c i :
  IndexByte data c = Some i -> IndexByte (firstn i data) c = None.
Proof.
  revert i. induction data as [|b t IH]; intros i H; [discriminate|].
  cbn in H. destruct (Byte.eqb b c) eqn:Hb.
  - inversion H; subst. reflexivity.
  - destruct (IndexByte t c) as [j|] eqn:Hj; [|discriminate].
    inversion H; subst. cbn. now rewrite Hb, (IH j eq_refl).
Qed.

Lemma IndexByte_removelast data c :
  IndexByte data c = None -> IndexByte (removelast data) c = None.
Proof.
  induction data as [|b t IH]; intros H; [reflexivity|].
  cbn in H. destruct (Byte.eqb b c) eqn:Hb; [discriminate|].
  destruct (IndexByte t c) eqn:Ht; [discriminate|].
  destruct t as [|b' t']; [reflexivity|].
  change (removelast (b :: b' :: t')) with (b :: removelast (b' :: t')).
  cbn [IndexByte]. now rewrite Hb, IH.
Qed.

Lemma dropCR_clean data c :
  IndexByte data c = None -> IndexByte (dropCR data) c = None.
Proof.
  intros H. unfold dropCR. destruct (_ && _); [|exact H].
  now apply IndexByte_removelast.
Qed.

(** The token of a successful [Scan] holds no newline, whatever the
    stream does. *)
Lemma ScanFuel_token fuel : forall s s',
  end_ s <= buflen s -> ScanFuel fuel s = Some (ScanTrue, s') ->
  exists t, token s' = Some t /\ IndexByte t newline = None.
Proof.
  induction fuel as [|fuel IH]; intros s s' Hend H; [discriminate|].
  rewrite ScanFuel_S in H.
  destruct (IndexByte (pend s) newline) as [i|] eqn:Hi.
  - rewrite (tryToken_line s i Hi) in H. inversion H; subst. fields.
    eexists. split; [reflexivity|]. now apply dropCR_clean, IndexByte_firstn.
  - destruct (err s) as [e|] eqn:He.
    + destruct (list_eq_dec Byte.byte_eq_dec (pend s) []) as [Hp|Hp].
      * rewrite (tryToken_drained s e Hp He) in H. fields in H.
        rewrite He in H. discriminate.
      * rewrite (tryToken_last s e Hi Hp He) in H. inversion H; subst. fields.
        eexists. split; [reflexivity|]. now apply dropCR_clean.
    + destruct (tryToken_more s Hi He) as (tok & Ht).
      assert (Ht' : tryToken s =
                    More (mkScanner (r s) (buflen s) (start s) (pend s) tok None
                                    (empties s)))
        by (rewrite Ht; now rewrite He).
      rewrite Ht' in H. fields in H. cbn [isNil negb] in H.
      destruct (grow (shift _)) as [s3|] eqn:Hg; [|discriminate].
      destruct (before_read _ _ _ Hend Ht' eq_refl Hg) as (_ & _ & He3 & Hend3).
      destruct (readLoop_spec (maxConsecutiveEmptyReads + 1) s3 He3
                  (Nat.lt_le_incl _ _ Hend3))
        as (q & _ & _ & _ & _ & Hq5 & Hq6 & _).
      apply IH in H; [exact H|]. now rewrite Hq5.
Qed.

End TokenFacts.

Section CleanLines.

Variable MarshalJSON : LogLine.t -> option error.
Variable Now : nat -> Z.
Variable ctx : Context.
Variable containerID : string.

Lemma scanLoop_clean fuel : forall s k res tr,
  bufio.end_ s <= bufio.buflen s ->
  scanLoop MarshalJSON Now fuel ctx containerID s k = Some (res, tr) ->
  Forall (fun line =>
            bufio.IndexByte (list_byte_of_string (LogLine.Line line)) bufio.newline
            = None)
         (sent tr).
Proof.
  induction fuel as [|fuel IH]; intros s k res tr Hend H; [discriminate|].
  cbn [scanLoop] in H.
  destruct (bufio.Scan s) as [[ok s']|] eqn:HS; [|discriminate].
  destruct (ScannerFacts.ScanFuel_sound _ _ _ _ Hend HS) as (Hend' & Hok & _).
  destruct ok; [| |congruence].
  - destruct (TokenFacts.ScanFuel_token _ _ _ Hend HS) as (t & Htok & Hclean).
    destruct (MarshalJSON _); [inversion H; subst; constructor|].
    destruct (Done ctx k); [inversion H; subst; constructor|].
    destruct (scanLoop _ _ fuel _ _ s' (S k)) as [[res' tr']|] eqn:HL;
      [|discriminate].
    inversion H; subst. cbn [app sent]. constructor; [|eauto].
    cbn [LogLine.Line]. unfold bufio.Text. rewrite Htok.
    now rewrite list_byte_of_string_of_list_byte.
  - inversion H; subst. constructor.
Qed.

End CleanLines.

(** X6. No line [Log] sends holds a newline byte, whatever the stream
    delivers and however it ends. *)
Theorem Log_lines_hold_no_newline MarshalJSON Now l ctx config :
  exists res tr,
    Log MarshalJSON Now l ctx config = Some (res, tr) /\
    Forall (fun line =>
              bufio.IndexByte (list_byte_of_string (LogLine.Line line)) bufio.newline
              = None)
           (sent tr).
Proof.
  unfold Log. destruct (negb _); [eexists _, _; split; [reflexivity|constructor]|].
  destruct (s3.GetObjectWithContext _ _ _) as [reader|cause];
    [|eexists _, _; split; [reflexivity|constructor]].
  destruct (scanLoop_total MarshalJSON Now ctx (Message.ContainerID config)
              (loopFuel (s3.Body reader)) (bufio.NewScanner (s3.Body reader)) 0)
    as (res & tr & HL).
  - cbn. lia.
  - unfold loopFuel, bufio.unread. cbn. lia.
  - rewrite HL. eexists _, _. split; [reflexivity|].
    cbn [sent]. rewrite sent_app, app_nil_r.
    eapply scanLoop_clean; [|exact HL]. cbn. lia.
Qed.

(** ** Streams that deliver: [Log] as a loop over the records *)

Lemma sent_between input tr :
  sent (EvGetObject input :: tr ++ [EvClose]) = sent tr.
Proof. cbn [sent]. now rewrite sent_app, app_nil_r. Qed.

Section EmitFacts.

Variable MarshalJSON : LogLine.t -> option error.
Variable Now : nat -> Z.
Variable ctx : Context.
Variable containerID : string.

(** Driven by the scanner over a stream that delivers, the loop does what
    the loop over the list does with the texts of the unread records. *)
Lemma scanLoop_emit fuel : forall s k,
  bufio.wf s -> length (bufio.unread s) < fuel ->
  scanLoop MarshalJSON Now fuel ctx containerID s k =
  Some (emit MarshalJSON Now ctx containerID (texts (bufio.unread s)) k).
Proof.
  induction fuel as [|fuel IH]; intros s k Hwf Hfuel; [lia|].
  cbn [scanLoop]. unfold bufio.Scan, texts.
  assert (Hp : bufio.passes s < bufio.scanFuel s)
    by (unfold bufio.passes, bufio.scanFuel; destruct (bufio.err s); lia).
  pose proof (ScannerFacts.ScanFuel_spec _ s Hwf Hp) as HS.
  destruct (records (bufio.unread s)) as [|rec rest]; cbn [scannable].
  - destruct HS as (s' & ->). reflexivity.
  - destruct (length rec <? bufio.MaxScanTokenSize).
    + destruct HS as (s' & HS & Htok & Hwf' & Hrest). rewrite HS.
      destruct (ScannerFacts.ScanFuel_sound _ _ _ _ (proj1 Hwf) HS) as (_ & _ & _ & Hlt).
      cbn [map emit].
      replace (bufio.Text s') with (text rec)
        by (unfold bufio.Text, text; now rewrite Htok).
      destruct (MarshalJSON _); [reflexivity|].
      destruct (Done ctx k); [reflexivity|].
      rewrite (IH s' (S k) Hwf') by (specialize (Hlt eq_refl); lia).
      unfold texts. rewrite Hrest. now destruct (emit _ _ _ _ _ _).
    + destruct HS as (s' & ->). reflexivity.
Qed.



(** The loop over a list stops at the first line the encoder rejects,
    with the lines before it sent. *)
Lemma emit_rejected good : forall k bad rest cause,
  (forall i t, nth_error good i = Some t ->
     MarshalJSON (LogLine.mk t containerID false (Now (k + i))) = None) ->
  (forall i, i < length good -> Done ctx (k + i) = false) ->
  MarshalJSON (LogLine.mk bad containerID false (Now (k + length good))) = Some cause ->
  fst (emit MarshalJSON Now ctx containerID (good ++ bad :: rest) k) =
  Returned (Some (Errorf "error marshalling log line: " cause)) /\
  map LogLine.Line
      (sent (snd (emit MarshalJSON Now ctx containerID (good ++ bad :: rest) k))) = good.
Proof.
  induction good as [|g good IH]; intros k bad rest cause Hgood Hlive Hbad;
    cbn [app emit].
  - cbn [length] in Hbad. rewrite Nat.add_0_r in Hbad. rewrite Hbad.
    split; reflexivity.
  - pose proof (Hgood 0 g eq_refl) as Hg. rewrite Nat.add_0_r in Hg. rewrite Hg.
    pose proof (Hlive 0 ltac:(cbn; lia)) as Hl. rewrite Nat.add_0_r in Hl. rewrite Hl.
    destruct (IH (S k) bad rest cause) as (Hres & Hsent).
    + intros i t Hi. replace (S k + i) with (k + S i) by lia. now apply Hgood.
    + intros i Hi. replace (S k + i) with (k + S i) by lia. apply Hlive. cbn. lia.
    + replace (S k + length good) with (k + length (g :: good)) by (cbn; lia).
      exact Hbad.
    + destruct (emit _ _ _ _ (good ++ bad :: rest) (S k)) as [res tr].
      cbn [fst snd] in *. split; [exact Hres|].
      cbn [app sent map LogLine.Line]. now rewrite Hsent.
Qed.

End EmitFacts.

(** X7. Over a stream that delivers, [Log] is the loop over the texts of
    the object's records, between the fetch and the close: what it
    returns and all it does are told by the bytes of the object, the
    encoder, the clock and the context, not by how the bytes arrive. *)
Theorem Log_as_list_loop MarshalJSON Now l ctx config reader :
  Message.Source config = "" ->
  s3.GetObjectWithContext (s3Client l) ctx
    (s3.mkGetObjectInput (bucket l) (Message.ContainerID config)) = inl reader ->
  bufio.delivers (s3.Body reader) ->
  Log MarshalJSON Now l ctx config =
  Some (fst (emit MarshalJSON Now ctx (Message.ContainerID config)
                  (texts (content (s3.Body reader))) 0),
        EvGetObject (s3.mkGetObjectInput (bucket l) (Message.ContainerID config))
        :: snd (emit MarshalJSON Now ctx (Message.ContainerID config)
                     (texts (content (s3.Body reader))) 0)
        ++ [EvClose]).
Proof.
  intros Hsrc Hget Hdel. unfold Log. rewrite Hsrc, Hget. cbn [String.eqb negb].
  rewrite scanLoop_emit.
  - change (bufio.unread (bufio.NewScanner (s3.Body reader)))
      with (content (s3.Body reader)).
    now destruct (emit _ _ _ _ _ _).
  - unfold bufio.wf, bufio.end_, bufio.NewScanner.
    cbn [bufio.r bufio.buflen bufio.start bufio.pend bufio.err length Nat.add].
    split; [lia|]. split; [lia|]. split; [exact Hdel|]. congruence.
  - unfold loopFuel, bufio.unread. cbn. lia.
Qed.

(** The object of the scenario arriving two bytes, then five, then the
    rest. *)
Lemma Log_as_list_loop_witness :
  Log encodes clock
      (relay (mkReadCloser [firstn 2 threeLines; firstn 5 (skipn 2 threeLines);
                            skipn 7 threeLines] EOF))
      (cancelledFrom 2) (Message.mk "abc123" "") =
  Some (fst (emit encodes clock (cancelledFrom 2) "abc123"
                  ["line1"; "line2"; "line3"] 0),
        EvGetObject (s3.mkGetObjectInput "logs-test" "abc123")
        :: snd (emit encodes clock (cancelledFrom 2) "abc123"
                     ["line1"; "line2"; "line3"] 0)
        ++ [EvClose]).
Proof.
  apply (Log_as_list_loop encodes clock
           (relay (mkReadCloser [firstn 2 threeLines; firstn 5 (skipn 2 threeLines);
                                 skipn 7 threeLines] EOF))
           (cancelledFrom 2) (Message.mk "abc123" "")
           (s3.mkGetObjectOutput
              (mkReadCloser [firstn 2 threeLines; firstn 5 (skipn 2 threeLines);
                             skipn 7 threeLines] EOF))).
  - reflexivity.
  - reflexivity.
  - repeat constructor; discriminate.
Defined.





(** X10. Over a stream that delivers, if the texts before some line are
    all encoded, with the context live at their polls, and the encoder
    rejects that line, [Log] returns the encoding error for it having
    sent exactly the texts before it. *)
Theorem Log_rejected_line MarshalJSON Now l ctx config reader good bad rest cause :
  Message.Source config = "" ->
  s3.GetObjectWithContext (s3Client l) ctx
    (s3.mkGetObjectInput (bucket l) (Message.ContainerID config)) = inl reader ->
  bufio.delivers (s3.Body reader) ->
  texts (content (s3.Body reader)) = good ++ bad :: rest ->
  (forall i t, nth_error good i = Some t ->
     MarshalJSON (LogLine.mk t (Message.ContainerID config) false (Now i)) = None) ->
  (forall i, i < length good -> Done ctx i = false) ->
  MarshalJSON (LogLine.mk bad (Message.ContainerID config) false (Now (length good)))
  = Some cause ->
  exists tr,
    Log MarshalJSON Now l ctx config =
    Some (Returned (Some (Errorf "error marshalling log line: " cause)), tr) /\
    map LogLine.Line (sent tr) = good.
Proof.
  intros Hsrc Hget Hdel Htexts Hgood Hlive Hbad.
  rewrite (Log_as_list_loop _ _ _ _ _ _ Hsrc Hget Hdel), Htexts.
  destruct (emit_rejected MarshalJSON Now ctx (Message.ContainerID config)
              good 0 bad rest cause) as (Hres & Hsent); auto.
  rewrite Hres. eexists. split; [reflexivity|]. now rewrite sent_between.
Qed.

Lemma Log_rejected_line_witness :
  exists tr,
    Log (rejects "line2") clock (relay (mkReadCloser [threeLines] EOF)) live
        (Message.mk "abc123" "") =
    Some (Returned (Some (Errorf "error marshalling log line: "
                                 (errorString "json: unsupported value"))), tr) /\
    map LogLine.Line (sent tr) = ["line1"].
Proof.
  apply (Log_rejected_line (rejects "line2") clock
           (relay (mkReadCloser [threeLines] EOF)) live (Message.mk "abc123" "")
           (s3.mkGetObjectOutput (mkReadCloser [threeLines] EOF))
           ["line1"] "line2" ["line3"] (errorString "json: unsupported value")).
  - reflexivity.
  - reflexivity.
  - repeat constructor; discriminate.
  - vm_compute. reflexivity.
  - intros [|[|i]] t Hi; cbn in Hi; inversion Hi; subst; reflexivity.
  - reflexivity.
  - reflexivity.
Defined.




(** ** Line ends *)





(** X13. An object that delivers no byte gives no line: [Log] fetches,
    finds nothing to scan, closes and returns [nil], whatever error ends
    the stream; it does not encode, ask the time or poll. *)
Theorem Log_empty_object MarshalJSON Now l ctx config reader :
  Message.Source config = "" ->
  s3.GetObjectWithContext (s3Client l) ctx
    (s3.mkGetObjectInput (bucket l) (Message.ContainerID config)) = inl reader ->
  chunks (s3.Body reader) = [] ->
  Log MarshalJSON Now l ctx config =
  Some (Returned None,
        [EvGetObject (s3.mkGetObjectInput (bucket l) (Message.ContainerID config));
         EvScan false; EvClose]).
Proof.
  intros Hsrc Hget Hch.
  rewrite (Log_as_list_loop _ _ _ _ _ _ Hsrc Hget).
  - unfold content. rewrite Hch. reflexivity.
  - unfold bufio.delivers. rewrite Hch. constructor.
Qed.

Lemma Log_empty_object_witness :
  Log (rejects "") clock
      (relay (mkReadCloser [] (errorString "read tcp: connection reset by peer")))
      (cancelledFrom 0) (Message.mk "abc123" "") =
  Some (Returned None,
        [EvGetObject (s3.mkGetObjectInput "logs-test" "abc123");
         EvScan false; EvClose]).
Proof.
  apply (Log_empty_object (rejects "") clock
           (relay (mkReadCloser [] (errorString "read tcp: connection reset by peer")))
           (cancelledFrom 0)
           (Message.mk "abc123" "")
           (s3.mkGetObjectOutput
              (mkReadCloser [] (errorString "read tcp: connection reset by peer"))));
    reflexivity.
Defined.

(** ** A stream that stalls *)

Module StallFacts.
Import bufio ScannerFacts.

(** Reads that bring nothing use up the read loop, which then records
    [io.ErrNoProgress] with the window as it was. *)
Lemma readLoop_stalled left : forall s rest,
  0 < left -> err s = None ->
  chunks (r s) = repeat [] left ++ rest ->
  err (readLoop left s) = Some ErrNoProgress /\ pend (readLoop left s) = pend s.
Proof.
  induction left as [|left IH]; intros s rest Hpos Herr Hch; [lia|].
  cbn [readLoop]. unfold Read. rewrite Hch. cbn [repeat app length Nat.leb].
  replace (buflen s - end_ s <? 0) with false by (symmetry; apply Nat.ltb_ge; lia).
  cbn [length Nat.ltb Nat.leb].
  destruct left as [|left'].
  - rewrite setErr_None by exact Herr. fields. now rewrite app_nil_r.
  - destruct (IH (mkScanner (mkReadCloser (repeat [] (S left') ++ rest) (final (r s)))
                            (buflen s) (start s) (pend s ++ []) (token s) (err s)
                            (empties s)) rest) as (He & Hp);
      [lia|exact Herr|reflexivity|].
    split; [exact He|]. rewrite Hp. fields. now rewrite app_nil_r.
Qed.

(** The first [Scan] over a stream that stalls returns [false]. *)
Lemma Scan_stalled rd :
  stalls rd -> exists s', Scan (NewScanner rd) = Some (ScanFalse, s').
Proof.
  intros (rest & Hch). unfold Scan, scanFuel.
  rewrite Nat.add_comm. cbn [Nat.add]. rewrite ScanFuel_S.
  destruct (tryToken_more (NewScanner rd) eq_refl eq_refl) as (tok & Ht).
  rewrite Ht. fields. cbn [NewScanner err isNil negb].
  set (s1 := mkScanner _ _ _ _ tok None _).
  destruct (shift_fields s1) as (_ & Hb2 & _).
  destruct (grow (shift s1)) as [s3|] eqn:Hg.
  - assert (Hend : end_ (NewScanner rd) <= buflen (NewScanner rd)) by (cbn; lia).
    destruct (before_read _ _ _ Hend Ht eq_refl Hg) as (Hr3 & Hp3 & He3 & _).
    rewrite Nat.add_1_r.
    destruct (readLoop_stalled (S maxConsecutiveEmptyReads) s3 rest) as (He4 & Hp4);
      [lia|exact He3|now rewrite Hr3|].
    rewrite ScanFuel_S.
    rewrite (tryToken_drained _ ErrNoProgress) by (rewrite ?Hp4, ?Hp3; auto).
    fields. rewrite He4. cbn [isNil negb]. eauto.
  - destruct (grow_None _ Hg) as (_ & Hlim). rewrite Hb2 in Hlim.
    pose proof MaxScanTokenSize_pos.
    unfold s1, NewScanner in Hlim. fields in Hlim. lia.
Qed.

End StallFacts.

(** X14. When the stream stalls, a hundred and one reads in a row bringing
    no byte and no error, [Log] gives up without a word: it returns [nil]
    with no line sent, whatever the stream would have delivered after. *)
Theorem Log_stalled_stream MarshalJSON Now l ctx config reader :
  Message.Source config = "" ->
  s3.GetObjectWithContext (s3Client l) ctx
    (s3.mkGetObjectInput (bucket l) (Message.ContainerID config)) = inl reader ->
  stalls (s3.Body reader) ->
  Log MarshalJSON Now l ctx config =
  Some (Returned None,
        [EvGetObject (s3.mkGetObjectInput (bucket l) (Message.ContainerID config));
         EvScan false; EvClose]).
Proof.
  intros Hsrc Hget Hstall. unfold Log. rewrite Hsrc, Hget. cbn [String.eqb negb].
  destruct (StallFacts.Scan_stalled _ Hstall) as (s' & HS).
  unfold loopFuel. rewrite Nat.add_1_r. cbn [scanLoop]. now rewrite HS.
Qed.

Lemma Log_stalled_stream_witness :
  Log encodes clock
      (relay (mkReadCloser (repeat [] 101 ++ [threeLines]) EOF))
      live (Message.mk "abc123" "") =
  Some (Returned None,
        [EvGetObject (s3.mkGetObjectInput "logs-test" "abc123");
         EvScan false; EvClose]).
Proof.
  apply (Log_stalled_stream encodes clock
           (relay (mkReadCloser (repeat [] 101 ++ [threeLines]) EOF))
           live (Message.mk "abc123" "")
           (s3.mkGetObjectOutput (mkReadCloser (repeat [] 101 ++ [threeLines]) EOF))).
  - reflexivity.
  - reflexivity.
  - exists [threeLines]. reflexivity.
Defined.

(** ** [main] after the flag *)

(** X15. With a bucket name and a session, when serving the plugin socket
    fails, [main] has created the session, the client and the handler and
    called [ServeUnix] for the driver name with group 0; it then prints
    "Error starting the S3 logger: " with the text of the error and a
    newline, and exits with status 1. *)
Theorem main_registration_failure S3Bucket env err :
  S3Bucket <> "" -> sessionErr env = None -> serveErr env = Some err ->
  main S3Bucket env =
  ([NewSession; NewS3; NewHandler; ServeUnix "s3logdriver" 0;
    Printf (String.append "Error starting the S3 logger: "
                          (String.append (Error err) lf))],
   Exit 1).
Proof.
  intros Hb Hs He. unfold main.
  destruct (String.eqb_spec S3Bucket ""); [contradiction|].
  now rewrite Hs, He.
Qed.

Lemma main_registration_failure_witness :
  main "logs-test"
       (mkStartup None (Some (errorString "listen unix: address already in use"))) =
  ([NewSession; NewS3; NewHandler; ServeUnix "s3logdriver" 0;
    Printf (String.append "Error starting the S3 logger: listen unix: address already in use" lf)],
   Exit 1).
Proof.
  apply (main_registration_failure "logs-test"
           (mkStartup None (Some (errorString "listen unix: address already in use")))
           (errorString "listen unix: address already in use")).
  - discriminate.
  - reflexivity.
  - reflexivity.
Defined.



(** X17. [main] registers the plugin at most once, under the name
    "s3logdriver" with group 0, right after creating the session, the
    client and the handler, and only with a bucket name and a session. *)
Theorem main_serves_after_setup S3Bucket env pre name gid post :
  fst (main S3Bucket env) = pre ++ ServeUnix name gid :: post ->
  name = "s3logdriver" /\ gid = 0%Z /\ pre = [NewSession; NewS3; NewHandler] /\
  S3Bucket <> "" /\ sessionErr env = None /\
  (forall name' gid', ~ In (ServeUnix name' gid') post).
Proof.
  unfold main. intros H.
  destruct (String.eqb_spec S3Bucket "") as [Hb|Hb];
    [|destruct (sessionErr env) as [e|]; [|destruct (serveErr env) as [e|]]];
    cbn [fst app] in H; walk H;
    inversion Hev; subst; repeat split; auto;
    intros name' gid' [Hin|[]]; discriminate.
Qed.

Lemma main_serves_after_setup_witness :
  fst (main "logs-test" (mkStartup None (Some EOF))) =
  [NewSession; NewS3; NewHandler] ++ ServeUnix driverName 0
    :: [Printf (String.append "Error starting the S3 logger: EOF" lf)] /\
  (driverName = "s3logdriver" /\ 0%Z = 0%Z /\
   [NewSession; NewS3; NewHandler] = [NewSession; NewS3; NewHandler] /\
   "logs-test" <> "" /\ sessionErr (mkStartup None (Some EOF)) = None /\
   (forall name' gid',
      ~ In (ServeUnix name' gid')
           [Printf (String.append "Error starting the S3 logger: EOF" lf)])).
Proof.
  split; [reflexivity|].
  apply (main_serves_after_setup "logs-test" (mkStartup None (Some EOF))
           [NewSession; NewS3; NewHandler] driverName 0%Z
           [Printf (String.append "Error starting the S3 logger: EOF" lf)]).
  reflexivity.
Defined.
